(** * koa-better-router: route registration and dispatch (src/index.js)

    A shallow embedding of [KoaBetterRouter]: the constructor, [createRoute],
    [addRoute], [loadMethods], [middleware] with the dispatcher it returns,
    and [legacyMiddleware].

    JavaScript objects used as maps (the options objects, the prototype) are
    finite maps; the routes array is a list whose positions identify the
    shared, mutable route objects; promises are reduced to their outcome. *)

From stdpp Require Import gmap strings list fin_maps.
From Stdlib Require Import ZArith Ascii String.

#[local] Set Warnings "-register-all".

Local Open Scope string_scope.
Local Open Scope list_scope.
Local Open Scope nat_scope.

(** ** JavaScript values *)

(** Values that reach [createRoute] as arguments and sit in a route's
    [middlewares] array.  A function is known by its identity. *)
Inductive value : Type :=
  | VUndef
  | VNull
  | VBool (b : bool)
  | VNum (n : Z)
  | VStr (s : string)
  | VFun (f : nat)
  | VArr (l : list value).

(** Values of option keys ([prefix], [legacy], the flags handed to
    path-match): primitives, for which [===] is structural equality. *)
Inductive prim : Type :=
  | PUndef
  | PNull
  | PBool (b : bool)
  | PNum (n : Z)
  | PStr (s : string).

#[global] Instance prim_eq_dec : EqDecision prim.
Proof. solve_decision. Defined.

(** An options object: own enumerable keys with their values. *)
Abbreviation object := (gmap string prim).

(** What a caller may pass where an options object is expected. *)
Inductive jsarg : Type :=
  | AObj (o : object)
  | APrim (p : prim).

(** The result of [typeof]. *)
Inductive jstype : Type :=
  | TUndefined | TObject | TBoolean | TNumber | TString | TFunction.

#[global] Instance jstype_eq_dec : EqDecision jstype.
Proof. solve_decision. Defined.

Definition typeof (v : value) : jstype :=
  match v with
  | VUndef => TUndefined
  | VNull => TObject
  | VBool _ => TBoolean
  | VNum _ => TNumber
  | VStr _ => TString
  | VFun _ => TFunction
  | VArr _ => TObject
  end.

Definition typeof_prim (p : prim) : jstype :=
  match p with
  | PUndef => TUndefined
  | PNull => TObject
  | PBool _ => TBoolean
  | PNum _ => TNumber
  | PStr _ => TString
  end.

(** JavaScript truthiness. *)
Definition truthy (v : value) : bool :=
  match v with
  | VUndef | VNull => false
  | VBool b => b
  | VNum n => negb (Z.eqb n 0)
  | VStr s => negb (String.eqb s "")
  | VFun _ | VArr _ => true
  end.

Definition truthy_prim (p : prim) : bool :=
  match p with
  | PUndef | PNull => false
  | PBool b => b
  | PNum n => negb (Z.eqb n 0)
  | PStr s => negb (String.eqb s "")
  end.

(** [o.k]: the value of key [k], [undefined] when the key is absent. *)
Definition get (o : object) (k : string) : prim := default PUndef (o !! k).

(** ** Strings *)

(** The letters [a] to [z]. *)
Definition is_lower (c : ascii) : bool :=
  (N.leb 97 (N_of_ascii c) && N.leb (N_of_ascii c) 122)%bool.

(** [c.toUpperCase()] on one ASCII character. *)
Definition upper_ascii (c : ascii) : ascii :=
  if is_lower c then ascii_of_N (N_of_ascii c - 32) else c.

(** [s.toUpperCase()], on ASCII strings. *)
Fixpoint toUpperCase (s : string) : string :=
  match s with
  | EmptyString => EmptyString
  | String c s' => String (upper_ascii c) (toUpperCase s')
  end.

(** [s.split(sep)] for a one-character separator: the pieces between the
    separators, so never an empty array. *)
Fixpoint split (sep : ascii) (s : string) : list string :=
  match s with
  | EmptyString => [EmptyString]
  | String c s' =>
      if Ascii.eqb c sep then EmptyString :: split sep s'
      else match split sep s' with
           | [] => [String c EmptyString]
           | p :: ps => String c p :: ps
           end
  end.

(** ** utils.js *)

(** Modelled from the spec: [utils.arrayify] is defined in utils.js, which is
    not part of src/.  The spec (4.1) has an explicit sequence, a single
    handler or nothing flattened into one ordered handler sequence: a missing
    (falsy) value gives no handler, an array gives its elements, any other
    value gives a one-element sequence. *)
Definition arrayify (val : value) : list value :=
  match val with
  | VArr l => l
  | _ => if truthy val then [val] else []
  end.

(** Modelled from the spec: [utils.extend] (extend-shallow) is loaded by
    utils.js, which is not part of src/.  The spec (3) has a shallow merge in
    which the right-hand side wins per key; arguments that are not objects
    are skipped. *)
Definition extend (o : object) (sources : list jsarg) : object :=
  foldl (fun acc src => match src with
                        | AObj s => s ∪ acc
                        | APrim _ => acc
                        end) o sources.

(** Parameters a route's matcher extracts from a path. *)
Abbreviation params := (gmap string string).

(** A compiled matcher: [match(path, existingParams)] gives the mapping, or
    [None] for the falsy no-match signal. *)
Definition matcher : Type := string → option params → option params.

(** ** Routes and routers *)

Record Route : Type := mkRoute {
  r_prefix : prim;
  r_path : string;
  r_pathname : string;
  r_route : string;
  r_match : matcher;
  r_method : string;
  r_middlewares : list value;
  (** [route.params], absent until a dispatch matches the route *)
  r_params : option params
}.

Record Router : Type := mkRouter {
  this_options : object;
  (** [this.route]: the compiler obtained from [utils.pathMatch] *)
  this_route : string → matcher;
  this_routes : list Route
}.

(** A thrown [TypeError] with its message. *)
Inductive exn : Type := TypeError (msg : string).

Section Registration.

(** [utils.pathMatch] (path-match) and [utils.createPrefix] (utils.js)
    are not part of src/: whatever they compute, the code below only
    stores and applies the results. *)
Variable pathMatch : object → string → matcher.
Variable createPrefix : prim → string → string.

(** [new KoaBetterRouter(options)] *)
Definition KoaBetterRouter (options : jsarg) : Router :=
  let o := extend {[ "prefix" := PStr "/" ]} [options] in
  {| this_options := o; this_route := pathMatch o; this_routes := [] |}.

(** [arguments[i]], [undefined] past the end. *)
Definition argument (arguments : list value) (i : nat) : value :=
  default VUndef (arguments !! i).

(** [parts[1]]: a string when the method string has a space. *)
Definition part1 (parts : list string) : value :=
  match parts !! 1 with
  | Some s => VStr s
  | None => VUndef
  end.

(** [createRoute(method, route, fns, ...args)], on the array of its
    arguments. *)
Definition createRoute (this : Router) (arguments : list value)
  : exn + Route :=
  let method := argument arguments 0 in
  let route := argument arguments 1 in
  let fns := argument arguments 2 in
  let args := drop 3 arguments in
  let middlewares := arrayify fns ++ args in
  match method with
  | VStr method =>
      let parts := split " " method in
      let method := match parts !! 0 with
                    | Some p => if String.eqb p "" then "get" else p
                    | None => "get"
                    end in
      let method := toUpperCase method in
      let '(middlewares, route) :=
        match route with
        | VFun _ => ([route] ++ middlewares, part1 parts)
        | _ => (middlewares, route)
        end in
      let '(middlewares, route) :=
        match route with
        | VArr l => (l ++ middlewares, part1 parts)
        | _ => (middlewares, route)
        end in
      match route with
      | VStr route =>
          let prefixed := createPrefix (get (this_options this) "prefix") route in
          inr {| r_prefix := get (this_options this) "prefix";
                 r_path := prefixed;
                 r_pathname := route;
                 r_route := route;
                 r_match := this_route this prefixed;
                 r_method := method;
                 r_middlewares := middlewares;
                 r_params := None |}
      | _ => inl (TypeError ".createRoute: expect `route` be string, array or function")
      end
  | _ => inl (TypeError ".createRoute: expect `method` to be a string")
  end.

(** [addRoute(...)]: push the created route, return [this]. *)
Definition addRoute (this : Router) (arguments : list value)
  : exn + Router :=
  match createRoute this arguments with
  | inl e => inl e
  | inr routeObject =>
      inr {| this_options := this_options this;
             this_route := this_route this;
             this_routes := this_routes this ++ [routeObject] |}
  end.

End Registration.

(** ** The request context and the dispatcher *)

(** The slots of the Koa context the router reads and writes.  [ctx.route]
    holds a reference to a route object: its position in [this.routes]. *)
Record Context : Type := mkContext {
  ctx_method : string;
  ctx_path : string;
  ctx_route : option nat;
  ctx_params : option params;
  ctx_body : string
}.

(** How a promise ends: fulfilled, rejected with a reason, or never
    settled. *)
Inductive outcome : Type :=
  | Fulfilled
  | Rejected (reason : value)
  | Pending.

(** What one call of the dispatcher did. *)
Record Dispatched : Type := mkDispatched {
  d_this : Router;
  d_ctx : Context;
  d_outcome : outcome;
  (** number of calls of [next] made by the dispatcher *)
  d_next_calls : nat;
  (** number of times the composed chain was started *)
  d_chain_calls : nat
}.

(** What [middleware] returns: the arrow function closed over [options], or
    [utils.convert.back] applied to such a result. *)
Inductive middleware_fn : Type :=
  | Modern (options : object)
  | ConvertBack (fn : middleware_fn).

Section Dispatch.

(** [utils.isGenerator], [utils.convert] and [utils.compose]
    (is-es6-generator-function, koa-convert, koa-compose) are external.
    The composed chain and [next] act on the context and end in an
    outcome. *)
Variable createPrefix : prim → string → string.
Variable isGenerator : value → bool.
Variable convert : value → value.
Variable compose : list value → Context → outcome * Context.

(** The body of [if (options.prefix !== route.prefix) { ... }]. *)
Definition rewrite_prefix (this : Router) (options : object) (route : Route)
  : Route :=
  if decide (get options "prefix" ≠ r_prefix route) then
    let prefixed := createPrefix (get options "prefix") (r_pathname route) in
    {| r_prefix := get options "prefix";
       r_path := prefixed;
       r_pathname := r_pathname route;
       r_route := r_route route;
       r_match := this_route this prefixed;
       r_method := r_method route;
       r_middlewares := r_middlewares route;
       r_params := r_params route |}
  else route.

(** The assignments to [route.params] and [route.middlewares] on a match. *)
Definition on_match (route : Route) (m : params) : Route :=
  {| r_prefix := r_prefix route;
     r_path := r_path route;
     r_pathname := r_pathname route;
     r_route := r_route route;
     r_match := r_match route;
     r_method := r_method route;
     r_middlewares :=
       map (fun fn => if isGenerator fn then convert fn else fn)
           (r_middlewares route);
     r_params := Some m |}.

(** [for (const route of this.routes) { ... }] from position [i] on: the
    table after the in-place updates, and the position and record of the
    route the loop returned from, if any. *)
Fixpoint for_of_routes (this : Router) (options : object) (ctx : Context)
    (i : nat) (routes : list Route) : list Route * option (nat * Route) :=
  match routes with
  | [] => ([], None)
  | route :: rest =>
      if negb (String.eqb (ctx_method ctx) (r_method route)) then
        let '(rest', found) := for_of_routes this options ctx (S i) rest in
        (route :: rest', found)
      else
        let route := rewrite_prefix this options route in
        match r_match route (ctx_path ctx) (ctx_params ctx) with
        | None =>
            let '(rest', found) := for_of_routes this options ctx (S i) rest in
            (route :: rest', found)
        | Some m =>
            let route := on_match route m in
            (route :: rest, Some (i, route))
        end
  end.

Definition set_routes (this : Router) (routes : list Route) : Router :=
  {| this_options := this_options this;
     this_route := this_route this;
     this_routes := routes |}.

(** [chain.then(() => next())]: [next] runs once the chain is fulfilled,
    and its outcome becomes the outcome; a chain that is rejected or never
    settles passes that on.  The last component counts the calls of
    [next]. *)
Definition then_next (next : Context → outcome * Context)
    (chain : outcome * Context) : outcome * Context * nat :=
  match chain with
  | (Fulfilled, ctx) => let '(o, ctx) := next ctx in (o, ctx, 1)
  | (o, ctx) => (o, ctx, 0)
  end.

(** The arrow function [(ctx, next) => { ... }] returned by [middleware],
    closed over [options], run on the router's current state. *)
Definition dispatch (options : object) (next : Context → outcome * Context)
    (this : Router) (ctx : Context) : Dispatched :=
  let '(routes, found) := for_of_routes this options ctx 0 (this_routes this) in
  let this := set_routes this routes in
  match found with
  | Some (i, route) =>
      let ctx := {| ctx_method := ctx_method ctx;
                    ctx_path := ctx_path ctx;
                    ctx_route := Some i;
                    ctx_params := r_params route;
                    ctx_body := ctx_body ctx |} in
      let '(o, ctx, calls) := then_next next (compose (r_middlewares route) ctx) in
      {| d_this := this; d_ctx := ctx; d_outcome := o;
         d_next_calls := calls; d_chain_calls := 1 |}
  | None =>
      let '(o, ctx) := next ctx in
      {| d_this := this; d_ctx := ctx; d_outcome := o;
         d_next_calls := 1; d_chain_calls := 0 |}
  end.

(** A run of requests, each through the dispatcher closed over the options
    it comes with, on the router state the previous one left. *)
Fixpoint dispatch_all (next : Context → outcome * Context)
    (this : Router) (requests : list (object * Context)) : Router :=
  match requests with
  | [] => this
  | (options, ctx) :: rest =>
      dispatch_all next (d_this (dispatch options next this ctx)) rest
  end.

(** What the loop's two tests say of one route: the mapping its matcher
    extracts when the method is the request's and the matcher, recompiled
    if the prefix differs, accepts the path. *)
Definition accepts (this : Router) (options : object) (ctx : Context)
    (route : Route) : option params :=
  if String.eqb (ctx_method ctx) (r_method route)
  then r_match (rewrite_prefix this options route) (ctx_path ctx) (ctx_params ctx)
  else None.

(** A route the loop went past without returning. *)
Definition passed_over (this : Router) (options : object) (ctx : Context)
    (route : Route) : Route :=
  if String.eqb (ctx_method ctx) (r_method route)
  then rewrite_prefix this options route
  else route.

(** All that one run of the loop can do to a route object. *)
Definition route_step (this : Router) (options : object) (ctx : Context)
    (route route' : Route) : Prop :=
  route' = route
  ∨ ctx_method ctx = r_method route
    ∧ (route' = rewrite_prefix this options route
       ∨ ∃ m, route' = on_match (rewrite_prefix this options route) m).

End Dispatch.

(** ** middleware and legacyMiddleware *)

(** [opts] after the first two statements of [middleware]. *)
Definition normalize_opts (opts : jsarg) : object :=
  let opts :=
    match opts with
    | AObj _ => extend {[ "legacy" := PBool false ]} [opts]
    | APrim p =>
        if decide (typeof_prim p = TObject)
        then extend {[ "legacy" := PBool false ]} [opts]
        else {[ "legacy" := p ]}
    end in
  <[ "legacy" := match get opts "legacy" with
                | PBool b => PBool b
                | _ => PBool false
                end ]> opts.

(** [middleware(opts)] and [legacyMiddleware()] call each other; [fuel]
    bounds the depth of the calls. *)
Fixpoint middleware_fuel (fuel : nat) (this : Router) (opts : jsarg)
    : option (Router * middleware_fn) :=
  match fuel with
  | O => None
  | S fuel =>
      let opts := normalize_opts opts in
      let options := extend ∅ [AObj (this_options this); AObj opts] in
      let this := {| this_options := options;
                     this_route := this_route this;
                     this_routes := this_routes this |} in
      if truthy_prim (get (this_options this) "legacy")
      then legacyMiddleware_fuel fuel this
      else Some (this, Modern options)
  end
with legacyMiddleware_fuel (fuel : nat) (this : Router)
    : option (Router * middleware_fn) :=
  match fuel with
  | O => None
  | S fuel =>
      match middleware_fuel fuel this (APrim PUndef) with
      | Some (this, fn) => Some (this, ConvertBack fn)
      | None => None
      end
  end.

(** Three nested calls are the deepest the code makes (see
    [middleware_total]). *)
Definition middleware (this : Router) (opts : jsarg) : option (Router * middleware_fn) :=
  middleware_fuel 3 this opts.

Definition legacyMiddleware (this : Router) : option (Router * middleware_fn) :=
  legacyMiddleware_fuel 2 this.

(** ** The prototype and loadMethods *)

(** The functions found on [KoaBetterRouter.prototype]. *)
Inductive method_impl : Type :=
  | loadMethods_impl
  | addRoute_impl
  | createRoute_impl
  | middleware_impl
  | legacyMiddleware_impl
  (** the closure [httpVerbMethod] made for the verb [METHOD] *)
  | httpVerbMethod (METHOD : string).

Inductive property : Type :=
  | PropUndefined
  | PropFunction (f : method_impl).

(** The constructor's prototype, shared by all instances, and the instances
    created so far; an instance is known by its position. *)
Record Program : Type := mkProgram {
  prototype : gmap string property;
  instances : list Router
}.

(** What reading [instance.key] finds: an own property set by the
    constructor, or the prototype's entry. *)
Inductive lookup_result : Type :=
  | OwnOptions (o : object)
  | OwnRoute (compile : string → matcher)
  | OwnRoutes (routes : list Route)
  | FromPrototype (p : property).

Definition proto_get (proto : gmap string property) (key : string) : property :=
  default PropUndefined (proto !! key).


Definition lookup_property (proto : gmap string property) (this : Router)
    (key : string) : lookup_result :=
  if decide (key = "options") then OwnOptions (this_options this)
  else if decide (key = "route") then OwnRoute (this_route this)
  else if decide (key = "routes") then OwnRoutes (this_routes this)
  else FromPrototype (proto_get proto key).

(** The prototype as index.js leaves it before any [loadMethods]. *)
Definition initial_prototype : gmap string property :=
  {[ "loadMethods" := PropFunction loadMethods_impl;
     "addRoute" := PropFunction addRoute_impl;
     "createRoute" := PropFunction createRoute_impl;
     "middleware" := PropFunction middleware_impl;
     "legacyMiddleware" := PropFunction legacyMiddleware_impl ]}.

Section LoadMethods.

(** [utils.methods] (the methods package): the lowercase HTTP verbs. *)
Variable methods : list string.
Variable pathMatch : object → string → matcher.
Variable createPrefix : prim → string → string.

(** One turn of [utils.methods.forEach]. *)
Definition install_verb (proto : gmap string property) (method : string)
  : gmap string property :=
  let METHOD := toUpperCase method in
  <[ method := PropFunction (httpVerbMethod METHOD) ]>
    (<[ METHOD := PropFunction (httpVerbMethod METHOD) ]> proto).

(** [loadMethods()] called on the instance at position [this]. *)
Definition loadMethods (p : Program) (this : nat) : Program * nat :=
  let proto := foldl install_verb (prototype p) methods in
  let proto := <[ "del" := proto_get proto "delete" ]> proto in
  ({| prototype := proto; instances := instances p |}, this).


(** The body of [httpVerbMethod]:
    [this.addRoute.apply(this, [METHOD].concat(args))]. *)
Definition httpVerbMethod_call (METHOD : string) (this : Router)
    (args : list value) : exn + Router :=
  addRoute createPrefix this ([VStr METHOD] ++ args).

End LoadMethods.

(** ** A concrete instance of the external capabilities

    Small stand-ins for path-match, utils.createPrefix, koa-convert,
    koa-compose and the methods package, on which the definitions above can
    be evaluated. *)
Module Demo.

(** Literal characters match themselves; a final [:name] takes the rest of
    a non-empty path as the parameter [name]. *)
Fixpoint match_pattern (pattern path : string) : option params :=
  match pattern, path with
  | EmptyString, EmptyString => Some ∅
  | String ":" name, String _ _ => Some {[ name := path ]}
  | String a pattern', String b path' =>
      if Ascii.eqb a b then match_pattern pattern' path' else None
  | _, _ => None
  end.

(** Like path-match, the matched parameters are written over the existing
    ones. *)
Definition pathMatch (options : object) (pattern : string) : matcher :=
  fun path existing =>
    match match_pattern pattern path with
    | Some m => Some (m ∪ default ∅ existing)
    | None => None
    end.

(** Prefix and pattern joined, with the prefix [/] adding nothing. *)
Definition createPrefix (prefix : prim) (pathname : string) : string :=
  match prefix with
  | PStr "/" => pathname
  | PStr p => String.append p pathname
  | _ => pathname
  end.

(** Functions numbered from 100 on are generator functions; converting one
    gives the modern function numbered 90 lower. *)
Definition isGenerator (fn : value) : bool :=
  match fn with
  | VFun f => 100 <=? f
  | _ => false
  end.

Definition convert (fn : value) : value :=
  match fn with
  | VFun f => VFun (f - 90)
  | _ => fn
  end.

Definition add_body (ctx : Context) (s : string) : Context :=
  {| ctx_method := ctx_method ctx;
     ctx_path := ctx_path ctx;
     ctx_route := ctx_route ctx;
     ctx_params := ctx_params ctx;
     ctx_body := String.append (ctx_body ctx) s |}.

(** Function 0 throws, function 1 never settles, every other function
    writes to the body and calls the next one. *)
Fixpoint compose (middlewares : list value) (ctx : Context)
  : outcome * Context :=
  match middlewares with
  | [] => (Fulfilled, ctx)
  | VFun 0 :: _ => (Rejected (VStr "boom"), ctx)
  | VFun 1 :: _ => (Pending, ctx)
  | VFun _ :: rest => compose rest (add_body ctx "+")
  | _ :: _ => (Rejected (VStr "not a function"), ctx)
  end.

Definition next (ctx : Context) : outcome * Context :=
  (Fulfilled, add_body ctx "!").

Definition methods : list string :=
  ["get"; "post"; "put"; "head"; "delete"; "options"; "trace"; "patch"].

(** [KoaBetterRouter({ prefix: '/api' })] with three routes added. *)
Definition api : Router :=
  KoaBetterRouter pathMatch (AObj {[ "prefix" := PStr "/api" ]}).

Definition add (this : Router) (arguments : list value) : Router :=
  match addRoute createPrefix this arguments with
  | inr this => this
  | inl _ => this
  end.

Definition api3 : Router :=
  add (add (add api [VStr "GET /users/:id"; VFun 2; VFun 103])
           [VStr "POST"; VStr "/users"; VArr [VFun 4]])
      [VStr "get"; VStr "/users/me"; VFun 0].

Definition no_route : Route :=
  {| r_prefix := PUndef; r_path := ""; r_pathname := ""; r_route := "";
     r_match := fun _ _ => None; r_method := ""; r_middlewares := [];
     r_params := None |}.

(** The three route objects of [api3], as registered. *)
Definition users_id : Route := default no_route (this_routes api3 !! 0).
Definition users_post : Route := default no_route (this_routes api3 !! 1).
Definition users_me : Route := default no_route (this_routes api3 !! 2).

(** A router whose only route has a handler that throws. *)
Definition boom : Router := add api [VStr "GET /boom"; VFun 0].

Definition request (method path : string) : Context :=
  {| ctx_method := method; ctx_path := path; ctx_route := None;
     ctx_params := None; ctx_body := "" |}.

Definition run (options : object) (this : Router) (ctx : Context) : Dispatched :=
  dispatch createPrefix isGenerator convert compose options next this ctx.

End Demo.

(** ** Words of the specification about registration *)

(** The route argument as the spec resolves it: a function or an array in
    the route position goes to the handler sequence, and the pattern falls
    back to the right-hand part of the method string. *)
Definition resolved_route (method route : value) : value :=
  match route with
  | VFun _ | VArr _ =>
      match method with
      | VStr m => part1 (split " " m)
      | _ => VUndef
      end
  | _ => route
  end.

(** The handlers a route argument contributes to the sequence. *)
Definition leading_handlers (route : value) : list value :=
  match route with
  | VFun _ => [route]
  | VArr l => l
  | _ => []
  end.


(** ** Words about the table, the options and the life of a router *)

(** Whether the character [c] occurs in [s]. *)
Fixpoint contains (c : ascii) (s : string) : bool :=
  match s with
  | EmptyString => false
  | String c' s' => (Ascii.eqb c' c || contains c s')%bool
  end.

(** The verb [createRoute] reads off a method string: the text before the
    first space, [get] when there is none. *)
Definition parsed_method (m : string) : string :=
  match split " " m !! 0 with
  | Some p => if String.eqb p "" then "get" else p
  | None => "get"
  end.

(** Whether the argument of [middleware] asks for the legacy shape: the
    boolean [true] itself, or an object whose [legacy] is the boolean
    [true]. *)
Definition asked_legacy (opts : jsarg) : bool :=
  match opts with
  | APrim (PBool b) => b
  | APrim _ => false
  | AObj o =>
      match o !! "legacy" with
      | Some (PBool b) => b
      | _ => false
      end
  end.

(** One thing a program does with a router. *)
Inductive operation : Type :=
  | OpAddRoute (arguments : list value)
  | OpMiddleware (opts : jsarg)
  | OpDispatch (options : object) (next : Context → outcome * Context)
      (ctx : Context).

(** The method and the original pattern of each route of the table. *)
Definition signature (this : Router) : list (string * string) :=
  map (λ r, (r_method r, r_pathname r)) (this_routes this).

Section Life.

Variable createPrefix : prim → string → string.
Variable isGenerator : value → bool.
Variable convert : value → value.
Variable compose : list value → Context → outcome * Context.

(** A route object whose derived fields agree: the path is the pattern under
    the stored prefix, the matcher is compiled from the path by the router's
    compiler, and the method is a non-empty upper-case string. *)
Definition route_wf (this : Router) (r : Route) : Prop :=
  r_path r = createPrefix (r_prefix r) (r_pathname r)
  ∧ r_match r = this_route this (r_path r)
  ∧ r_route r = r_pathname r
  ∧ toUpperCase (r_method r) = r_method r
  ∧ r_method r ≠ "".

Definition router_wf (this : Router) : Prop :=
  Forall (route_wf this) (this_routes this).

(** The router after one operation; a call that throws leaves it as it
    was. *)
Definition apply_op (this : Router) (op : operation) : Router :=
  match op with
  | OpAddRoute arguments =>
      match addRoute createPrefix this arguments with
      | inr this' => this'
      | inl _ => this
      end
  | OpMiddleware opts =>
      match middleware this opts with
      | Some (this', _) => this'
      | None => this
      end
  | OpDispatch options next ctx =>
      d_this (dispatch createPrefix isGenerator convert compose
                options next this ctx)
  end.

Definition run_ops (this : Router) (ops : list operation) : Router :=
  foldl apply_op this ops.

(** Whether a route of method [method] and pattern [pathname] takes the
    request under the dispatcher's prefix, by the pattern alone. *)
Definition static_accepts (this : Router) (options : object) (ctx : Context)
    (method pathname : string) : option params :=
  if String.eqb (ctx_method ctx) method
  then this_route this (createPrefix (get options "prefix") pathname)
         (ctx_path ctx) (ctx_params ctx)
  else None.

(** The first entry of a signature that takes the request, with its
    position counted from [i]. *)
Fixpoint select (this : Router) (options : object) (ctx : Context) (i : nat)
    (table : list (string * string)) : option (nat * option params) :=
  match table with
  | [] => None
  | (method, pathname) :: rest =>
      match static_accepts this options ctx method pathname with
      | Some m => Some (i, Some m)
      | None => select this options ctx (S i) rest
      end
  end.

(** What the dispatcher's loop selects: the position of the route and the
    mapping stored on it. *)
Definition selected (this : Router) (options : object) (ctx : Context)
    : option (nat * option params) :=
  option_map (λ found : nat * Route, (found.1, r_params found.2))
    (for_of_routes createPrefix isGenerator convert this options ctx 0
       (this_routes this)).2.

End Life.

(** A second stand-in for koa-convert, whose result is never a generator
    function for [Demo.isGenerator]. *)
Module Demo2.

Definition convert (fn : value) : value :=
  match fn with
  | VFun f => VFun (f mod 100)
  | _ => fn
  end.

Definition run (options : object) (this : Router) (ctx : Context) : Dispatched :=
  dispatch Demo.createPrefix Demo.isGenerator convert Demo.compose
    options Demo.next this ctx.

End Demo2.

(** * Registration *)

Example split_method_and_route :
  split " " "GET /users/:id" = ["GET"; "/users/:id"].
Proof. reflexivity. Qed.

Example split_no_space : split " " "post" = ["post"].
Proof. reflexivity. Qed.

Example split_two_spaces : split " " "GET  /x" = ["GET"; ""; "/x"].
Proof. reflexivity. Qed.

Example toUpperCase_verb : toUpperCase "m-search" = "M-SEARCH".
Proof. reflexivity. Qed.

Example arrayify_shapes :
  arrayify VUndef = [] ∧ arrayify (VFun 1) = [VFun 1]
  ∧ arrayify (VArr [VFun 1; VFun 2]) = [VFun 1; VFun 2].
Proof. by repeat split. Qed.

(** The routes of the demo router: the method defaults and is upper-cased,
    the handlers of all shapes end in one sequence. *)
Example api3_routes :
  map (λ r, (r_method r, r_path r, r_middlewares r)) (this_routes Demo.api3) =
    [("GET", "/api/users/:id", [VFun 2; VFun 103]);
     ("POST", "/api/users", [VFun 4]);
     ("GET", "/api/users/me", [VFun 0])].
Proof. reflexivity. Qed.

Example createRoute_default_method :
  ∃ route,
    createRoute Demo.createPrefix Demo.api [VStr " /x"; VFun 2] = inr route
    ∧ r_method route = "GET" ∧ r_path route = "/api/x".
Proof. eexists. by repeat split. Qed.

Section RegistrationFacts.

Variable createPrefix : prim → string → string.

(** What [createRoute] returns once [method] is a string and the resolved
    route is the string [pattern]. *)
Lemma createRoute_string this arguments m pattern :
  argument arguments 0 = VStr m →
  resolved_route (VStr m) (argument arguments 1) = VStr pattern →
  ∃ METHOD,
    createRoute createPrefix this arguments =
    inr {| r_prefix := get (this_options this) "prefix";
           r_path := createPrefix (get (this_options this) "prefix") pattern;
           r_pathname := pattern;
           r_route := pattern;
           r_match := this_route this
                        (createPrefix (get (this_options this) "prefix") pattern);
           r_method := METHOD;
           r_middlewares := leading_handlers (argument arguments 1)
                            ++ arrayify (argument arguments 2)
                            ++ drop 3 arguments;
           r_params := None |}.
Proof.
  intros Hm Hr. unfold createRoute. rewrite Hm.
  destruct (argument arguments 1) as [| | | | s | f | l] eqn:Hroute;
    simpl in Hr; try discriminate.
  - injection Hr as ->. eexists. reflexivity.
  - unfold part1 in *. destruct (split " " m !! 1) as [p|]; [|discriminate].
    injection Hr as ->. eexists. reflexivity.
  - unfold part1 in *. destruct (split " " m !! 1) as [p|]; [|discriminate].
    injection Hr as ->. eexists. reflexivity.
Qed.

Lemma createRoute_method_not_string this arguments :
  typeof (argument arguments 0) ≠ TString →
  createRoute createPrefix this arguments =
  inl (TypeError ".createRoute: expect `method` to be a string").
Proof.
  intros Hm. unfold createRoute.
  by destruct (argument arguments 0).
Qed.

Lemma createRoute_route_not_string this arguments m :
  argument arguments 0 = VStr m →
  typeof (resolved_route (VStr m) (argument arguments 1)) ≠ TString →
  createRoute createPrefix this arguments =
  inl (TypeError ".createRoute: expect `route` be string, array or function").
Proof.
  intros Hm Hr. unfold createRoute. rewrite Hm.
  destruct (argument arguments 1) as [| | | | s | f | l] eqn:Hroute;
    simpl in Hr; try done.
  - unfold part1 in *. by destruct (split " " m !! 1).
  - unfold part1 in *. by destruct (split " " m !! 1).
Qed.

(** A route is returned only past both checks. *)
Lemma createRoute_returns_inv this arguments route :
  createRoute createPrefix this arguments = inr route →
  ∃ m pattern,
    argument arguments 0 = VStr m
    ∧ resolved_route (VStr m) (argument arguments 1) = VStr pattern.
Proof.
  intros Hok.
  destruct (argument arguments 0) as [| | | | m | |] eqn:Harg0;
    try (rewrite createRoute_method_not_string in Hok;
         [discriminate | by rewrite Harg0]).
  destruct (resolved_route (VStr m) (argument arguments 1))
    as [| | | | pattern | |] eqn:Hres;
    try (rewrite (createRoute_route_not_string this arguments m Harg0) in Hok;
         [discriminate | by rewrite Hres]).
  by exists m, pattern.
Qed.


(** C4: the three argument shapes give the same route: method [GET],
    pattern [/x], the full path of [/x] under the router's prefix, and the
    handlers [h1], [h2] in that order. *)
Theorem createRoute_shapes_agree (this : Router) (h1 h2 : nat) :
  let prefix := get (this_options this) "prefix" in
  let R := {| r_prefix := prefix;
              r_path := createPrefix prefix "/x";
              r_pathname := "/x";
              r_route := "/x";
              r_match := this_route this (createPrefix prefix "/x");
              r_method := "GET";
              r_middlewares := [VFun h1; VFun h2];
              r_params := None |} in
  createRoute createPrefix this [VStr "GET"; VStr "/x"; VFun h1; VFun h2]
    = inr R
  ∧ createRoute createPrefix this [VStr "GET /x"; VArr [VFun h1; VFun h2]]
    = inr R
  ∧ createRoute createPrefix this [VStr "GET /x"; VFun h1; VFun h2]
    = inr R.
Proof. repeat split. Qed.

(** C3, as amended: a successful registration stores the handlers that
    were supplied, in order: those of the route position, then [fns], then
    the remaining arguments; [addRoute] appends exactly that route. *)
Theorem createRoute_middlewares (this : Router) (arguments : list value)
    (route : Route) :
  createRoute createPrefix this arguments = inr route →
  r_middlewares route =
    leading_handlers (argument arguments 1)
    ++ arrayify (argument arguments 2) ++ drop 3 arguments
  ∧ addRoute createPrefix this arguments =
      inr (set_routes this (this_routes this ++ [route])).
Proof.
  intros Hok.
  destruct (createRoute_returns_inv this arguments route Hok)
    as (m & pattern & Harg0 & Hres).
  destruct (createRoute_string this arguments m pattern Harg0 Hres)
    as [METHOD Hcr].
  rewrite Hcr in Hok. injection Hok as <-. split; [done|].
  unfold addRoute. by rewrite Hcr.
Qed.

End RegistrationFacts.

(** C3, as the spec has it, fails: [createRoute('GET', '/x')] succeeds and
    the route it returns has no handler. *)
Lemma createRoute_no_handlers :
  ∃ route,
    createRoute Demo.createPrefix Demo.api [VStr "GET"; VStr "/x"] = inr route
    ∧ r_middlewares route = [].
Proof. eexists. split; reflexivity. Qed.

Lemma createRoute_middlewares_witness :
  ∃ route,
    createRoute Demo.createPrefix Demo.api
      [VStr "GET /users/:id"; VFun 2; VFun 103] = inr route
    ∧ r_middlewares route = [VFun 2; VFun 103].
Proof.
  eexists. split; [reflexivity|].
  exact (proj1 (createRoute_middlewares Demo.createPrefix Demo.api
                  [VStr "GET /users/:id"; VFun 2; VFun 103] _ eq_refl)).
Defined.

(** * Dispatch *)

Section DispatchFacts.

Variable createPrefix : prim → string → string.
Variable isGenerator : value → bool.
Variable convert : value → value.
Variable compose : list value → Context → outcome * Context.

(** Unfolding, by the names the definitions have outside this section. *)
Local Ltac unfold_accepts := unfold accepts.
Local Ltac unfold_accepts_in H := unfold accepts in H.
Local Ltac unfold_passed_over := unfold passed_over.
Local Ltac unfold_rewrite_prefix := unfold rewrite_prefix.
Local Ltac unfold_dispatch := unfold dispatch.
Local Ltac unfold_dispatch_all := cbn [dispatch_all].

Local Abbreviation rewrite_prefix := (rewrite_prefix createPrefix).
Local Abbreviation on_match := (on_match isGenerator convert).
Local Abbreviation for_of_routes := (for_of_routes createPrefix isGenerator convert).
Local Abbreviation accepts := (accepts createPrefix).
Local Abbreviation passed_over := (passed_over createPrefix).
Local Abbreviation route_step := (route_step createPrefix isGenerator convert).
Local Abbreviation dispatch := (dispatch createPrefix isGenerator convert compose).
Local Abbreviation dispatch_all :=
  (dispatch_all createPrefix isGenerator convert compose).

Implicit Types (this : Router) (options : object) (ctx : Context)
  (route R : Route) (routes pre post : list Route) (m : params)
  (next : Context → outcome * Context).

(** *** The loop *)

Lemma for_of_routes_skip this options ctx i route rest :
  accepts this options ctx route = None →
  for_of_routes this options ctx i (route :: rest) =
    (passed_over this options ctx route
       :: (for_of_routes this options ctx (S i) rest).1,
     (for_of_routes this options ctx (S i) rest).2).
Proof.
  unfold_accepts; unfold_passed_over. intros Hacc. simpl.
  destruct (String.eqb (ctx_method ctx) (r_method route)); simpl.
  - rewrite Hacc. by destruct (for_of_routes _ _ _ _ rest).
  - by destruct (for_of_routes _ _ _ _ rest).
Qed.

Lemma for_of_routes_hit this options ctx i route rest m :
  accepts this options ctx route = Some m →
  for_of_routes this options ctx i (route :: rest) =
    (on_match (rewrite_prefix this options route) m :: rest,
     Some (i, on_match (rewrite_prefix this options route) m)).
Proof.
  unfold_accepts. intros Hacc. simpl.
  destruct (String.eqb (ctx_method ctx) (r_method route)); simpl;
    [|discriminate].
  by rewrite Hacc.
Qed.

(** No route accepts the request: the loop runs to the end. *)
Lemma for_of_routes_none this options ctx routes i :
  Forall (λ route, accepts this options ctx route = None) routes →
  for_of_routes this options ctx i routes =
    (map (passed_over this options ctx) routes, None).
Proof.
  intros Hall. revert i.
  induction Hall as [|route rest Hroute _ IH]; intros i; [done|].
  rewrite for_of_routes_skip by done. by rewrite IH.
Qed.

(** The loop returns from the first route that accepts the request. *)
Lemma for_of_routes_first this options ctx pre R post m i :
  Forall (λ route, accepts this options ctx route = None) pre →
  accepts this options ctx R = Some m →
  for_of_routes this options ctx i (pre ++ R :: post) =
    (map (passed_over this options ctx) pre
       ++ on_match (rewrite_prefix this options R) m :: post,
     Some (i + List.length pre, on_match (rewrite_prefix this options R) m)).
Proof.
  intros Hpre Hacc. revert i.
  induction Hpre as [|route rest Hroute _ IH]; intros i.
  - cbn [app map List.length]. rewrite Nat.add_0_r.
    by apply for_of_routes_hit.
  - rewrite <- app_comm_cons.
    rewrite for_of_routes_skip by done. rewrite IH.
    cbn [app map List.length fst snd]. by rewrite Nat.add_succ_r.
Qed.

(** Every position of the table still holds the route object it held,
    changed by at most one [route_step]. *)
Lemma for_of_routes_lookup this options ctx routes i j R :
  routes !! j = Some R →
  ∃ R', (for_of_routes this options ctx i routes).1 !! j = Some R'
        ∧ route_step this options ctx R R'.
Proof.
  revert i j. induction routes as [|route rest IH]; intros i j Hj; [done|].
  destruct (accepts this options ctx route) as [m|] eqn:Hacc.
  - destruct j as [|j]; simpl in Hj.
    + injection Hj as ->. eexists.
      rewrite (for_of_routes_hit _ _ _ _ _ _ m Hacc). split; [done|].
      right. unfold_accepts_in Hacc.
      destruct (String.eqb_spec (ctx_method ctx) (r_method R));
        [|discriminate].
      split; [done|]. right. by exists m.
    + exists R. rewrite (for_of_routes_hit _ _ _ _ _ _ m Hacc).
      split; [done|]. by left.
  - destruct j as [|j]; simpl in Hj.
    + injection Hj as ->. eexists.
      rewrite for_of_routes_skip by done. split; [done|].
      unfold_passed_over.
      destruct (String.eqb_spec (ctx_method ctx) (r_method R)).
      * right. split; [done|]. by left.
      * by left.
    + destruct (IH (S i) j Hj) as (R' & Hlook & Hstep).
      exists R'. rewrite for_of_routes_skip by done. by split.
Qed.

Lemma dispatch_this options next this ctx :
  d_this (dispatch options next this ctx) =
    set_routes this (for_of_routes this options ctx 0 (this_routes this)).1.
Proof.
  unfold_dispatch.
  destruct (for_of_routes _ _ _ _ _) as [routes [[i route]|]]; simpl.
  - by destruct (then_next _ _) as [[o c] calls].
  - by destruct (next ctx).
Qed.

Lemma dispatch_lookup options next this ctx j R :
  this_routes this !! j = Some R →
  ∃ R', this_routes (d_this (dispatch options next this ctx)) !! j = Some R'
        ∧ route_step this options ctx R R'.
Proof.
  intros Hj. rewrite dispatch_this. simpl.
  by apply for_of_routes_lookup.
Qed.

Lemma dispatch_this_route options next this ctx :
  this_route (d_this (dispatch options next this ctx)) = this_route this.
Proof. by rewrite dispatch_this. Qed.

(** The loop goes past a run of routes none of which accepts. *)
Lemma for_of_routes_app this options ctx pre rest i :
  Forall (λ route, accepts this options ctx route = None) pre →
  for_of_routes this options ctx i (pre ++ rest) =
    (map (passed_over this options ctx) pre
       ++ (for_of_routes this options ctx (i + List.length pre) rest).1,
     (for_of_routes this options ctx (i + List.length pre) rest).2).
Proof.
  intros Hpre. revert i.
  induction Hpre as [|route pre' Hroute _ IH]; intros i.
  - cbn [app map List.length]. rewrite Nat.add_0_r.
    by destruct (for_of_routes _ _ _ _ rest).
  - rewrite <- app_comm_cons.
    rewrite for_of_routes_skip by done. rewrite IH.
    cbn [app map List.length fst snd]. by rewrite Nat.add_succ_r.
Qed.

Lemma lookup_after_map {A : Type} (f : A → A) (l : list A) (x : A) (k : list A) :
  (map f l ++ x :: k) !! List.length l = Some x.
Proof. induction l as [|y l IH]; [done|]. apply IH. Qed.

(** A route the loop reaches with the request's method is left with the
    prefix the dispatcher was made with. *)
Lemma for_of_routes_considered this options ctx pre R post i :
  Forall (λ route, accepts this options ctx route = None) pre →
  ctx_method ctx = r_method R →
  ∃ R', (for_of_routes this options ctx i (pre ++ R :: post)).1
          !! List.length pre = Some R'
        ∧ (R' = rewrite_prefix this options R
           ∨ ∃ m, R' = on_match (rewrite_prefix this options R) m).
Proof.
  intros Hpre Hmethod.
  destruct (accepts this options ctx R) as [m|] eqn:Hacc.
  - eexists. rewrite (for_of_routes_first _ _ _ _ _ _ m i Hpre Hacc).
    split; [apply lookup_after_map|]. right. by exists m.
  - eexists. rewrite (for_of_routes_app _ _ _ _ _ i Hpre).
    rewrite for_of_routes_skip by done.
    split; [apply lookup_after_map|]. left.
    unfold_passed_over. rewrite Hmethod.
    by rewrite String.eqb_refl.
Qed.

Lemma rewrite_prefix_same this options route :
  get options "prefix" = r_prefix route →
  rewrite_prefix this options route = route.
Proof. intros Heq. unfold_rewrite_prefix. by case_decide. Qed.

(** Dispatchers made with the prefix a route already has leave its prefix,
    path and matcher alone. *)
Lemma dispatch_all_same_prefix next later : ∀ this j R,
  this_routes this !! j = Some R →
  Forall (λ req : object * Context, get req.1 "prefix" = r_prefix R) later →
  ∃ R', this_routes (dispatch_all next this later) !! j = Some R'
        ∧ r_prefix R' = r_prefix R ∧ r_path R' = r_path R
        ∧ r_match R' = r_match R ∧ r_pathname R' = r_pathname R.
Proof.
  induction later as [|[options ctx] later IH]; intros this j R Hj Hall.
  - by exists R.
  - apply Forall_cons in Hall as [Hsame Hall]. simpl in Hsame.
    destruct (dispatch_lookup options next this ctx j R Hj)
      as (R1 & Hj1 & Hstep).
    assert (r_prefix R1 = r_prefix R ∧ r_path R1 = r_path R
            ∧ r_match R1 = r_match R ∧ r_pathname R1 = r_pathname R)
      as (Hp & Hpath & Hmatch & Hname).
    { destruct Hstep as [->|[_ [->| [m ->]]]];
        rewrite ?rewrite_prefix_same by done; done. }
    destruct (IH _ j R1 Hj1) as (R' & Hj' & Hp' & Hpath' & Hmatch' & Hname').
    { rewrite Hp. done. }
    exists R'. simpl. split; [done|]. repeat split; congruence.
Qed.

(** Requests of other methods leave a route object as it is. *)
Lemma dispatch_all_other_methods next requests : ∀ this j R,
  this_routes this !! j = Some R →
  Forall (λ req : object * Context, ctx_method req.2 ≠ r_method R) requests →
  this_routes (dispatch_all next this requests) !! j = Some R.
Proof.
  induction requests as [|[options ctx] requests IH]; intros this j R Hj Hall.
  - done.
  - apply Forall_cons in Hall as [Hother Hall]. simpl in Hother.
    destruct (dispatch_lookup options next this ctx j R Hj)
      as (R1 & Hj1 & [->|[Hmethod _]]); [|done].
    simpl. by apply IH.
Qed.

(** *** The dispatcher *)

(** C1: the dispatcher takes the first route of the table, in registration
    order, whose method is the request's and whose matcher accepts the
    path, whatever comes after it: that route object, at its place in the
    table, gets the mapping [m] the matcher extracted; the chain of its
    handlers is started once, on a context whose [route] refers to that
    object and whose [params] is [m]. *)
Theorem dispatch_first_match options next this ctx pre R post m :
  this_routes this = pre ++ R :: post →
  Forall (λ route, accepts this options ctx route = None) pre →
  accepts this options ctx R = Some m →
  let R' := on_match (rewrite_prefix this options R) m in
  let ctx' := {| ctx_method := ctx_method ctx;
                 ctx_path := ctx_path ctx;
                 ctx_route := Some (List.length pre);
                 ctx_params := Some m;
                 ctx_body := ctx_body ctx |} in
  let D := dispatch options next this ctx in
  this_routes (d_this D) !! List.length pre = Some R'
  ∧ r_params R' = Some m
  ∧ r_method R' = r_method R
  ∧ r_pathname R' = r_pathname R
  ∧ d_chain_calls D = 1
  ∧ (d_outcome D, d_ctx D, d_next_calls D) =
      then_next next (compose (r_middlewares R') ctx').
Proof.
  intros Hroutes Hpre Hacc R' ctx' D.
  assert (for_of_routes this options ctx 0 (this_routes this) =
            (map (passed_over this options ctx) pre ++ R' :: post,
             Some (List.length pre, R'))) as Hloop.
  { rewrite Hroutes. by rewrite (for_of_routes_first _ _ _ _ _ _ m 0 Hpre Hacc). }
  assert (r_method R' = r_method R ∧ r_pathname R' = r_pathname R)
    as [Hmethod Hname].
  { subst R'. unfold_rewrite_prefix. by case_decide. }
  subst D. unfold_dispatch. rewrite Hloop.
  change (r_params R') with (Some m). fold ctx'.
  destruct (then_next next (compose (r_middlewares R') ctx'))
    as [[o c] calls].
  simpl. split; [apply lookup_after_map|]. done.
Qed.

(** C2: when no route of the table accepts the request, the dispatcher
    calls [next] once, on the context as it received it, starts no chain,
    and ends as [next] ends; if [next] leaves the context alone, so does
    the dispatch. *)
Theorem dispatch_no_match options next this ctx :
  Forall (λ route, accepts this options ctx route = None) (this_routes this) →
  let D := dispatch options next this ctx in
  d_next_calls D = 1
  ∧ d_chain_calls D = 0
  ∧ (d_outcome D, d_ctx D) = next ctx
  ∧ (∀ o, d_ctx (dispatch options (λ c, (o, c)) this ctx) = ctx).
Proof.
  intros Hnone D. subst D. unfold_dispatch.
  rewrite (for_of_routes_none _ _ _ _ 0 Hnone).
  split; [|split; [|split]].
  - by destruct (next ctx).
  - by destruct (next ctx).
  - by destruct (next ctx).
  - done.
Qed.

(** C7: on a matched route the chain is started once; [next] is called,
    once, exactly when the chain is fulfilled, and the dispatch then ends
    as [next] ends; a rejected chain makes the dispatch end rejected with
    the same reason and without a call of [next], and a chain that never
    settles leaves the dispatch unsettled. *)
Theorem dispatch_then_next options next this ctx routes i route :
  for_of_routes this options ctx 0 (this_routes this) = (routes, Some (i, route)) →
  let ctx' := {| ctx_method := ctx_method ctx;
                 ctx_path := ctx_path ctx;
                 ctx_route := Some i;
                 ctx_params := r_params route;
                 ctx_body := ctx_body ctx |} in
  let chain := compose (r_middlewares route) ctx' in
  let D := dispatch options next this ctx in
  d_chain_calls D = 1
  ∧ (d_next_calls D = 1 ↔ chain.1 = Fulfilled)
  ∧ (d_next_calls D = 0 ↔ chain.1 ≠ Fulfilled)
  ∧ (chain.1 = Fulfilled → (d_outcome D, d_ctx D) = next chain.2)
  ∧ (∀ reason, chain.1 = Rejected reason →
       d_outcome D = Rejected reason ∧ d_ctx D = chain.2 ∧ d_next_calls D = 0)
  ∧ (chain.1 = Pending →
       d_outcome D = Pending ∧ d_ctx D = chain.2 ∧ d_next_calls D = 0).
Proof.
  intros Hloop ctx' chain D. subst D. unfold_dispatch.
  rewrite Hloop. fold ctx'. fold chain.
  destruct chain as [[|reason|] c]; simpl.
  - destruct (next c) as [o c'] eqn:Hnext. simpl. naive_solver.
  - naive_solver.
  - naive_solver.
Qed.

(** C6: a route the loop reaches with the request's method and a stored
    prefix other than the dispatcher's gets the dispatcher's prefix, the
    full path of its original pattern under that prefix, and the matcher
    compiled from that path, all three together; and it keeps them through
    any later dispatches made with the same prefix. *)
Theorem prefix_rewrite_persists options next this ctx pre R post
    (later : list (object * Context)) :
  this_routes this = pre ++ R :: post →
  Forall (λ route, accepts this options ctx route = None) pre →
  ctx_method ctx = r_method R →
  get options "prefix" ≠ r_prefix R →
  Forall (λ req, get req.1 "prefix" = get options "prefix") later →
  let prefixed := createPrefix (get options "prefix") (r_pathname R) in
  ∃ R',
    this_routes (dispatch_all next this ((options, ctx) :: later))
      !! List.length pre = Some R'
    ∧ r_prefix R' = get options "prefix"
    ∧ r_path R' = prefixed
    ∧ r_match R' = this_route this prefixed
    ∧ r_pathname R' = r_pathname R.
Proof.
  intros Hroutes Hpre Hmethod Hdiff Hlater prefixed.
  destruct (for_of_routes_considered this options ctx pre R post 0 Hpre Hmethod)
    as (R1 & Hj1 & HR1).
  assert (r_prefix R1 = get options "prefix" ∧ r_path R1 = prefixed
          ∧ r_match R1 = this_route this prefixed
          ∧ r_pathname R1 = r_pathname R) as (Hp & Hpath & Hmatch & Hname).
  { destruct HR1 as [->|[m ->]]; unfold_rewrite_prefix;
      by case_decide. }
  unfold_dispatch_all.
  destruct (dispatch_all_same_prefix next later
              (d_this (dispatch options next this ctx)) (List.length pre) R1)
    as (R' & Hj' & Hp' & Hpath' & Hmatch' & Hname').
  { rewrite dispatch_this. simpl. by rewrite Hroutes. }
  { by rewrite Hp. }
  exists R'. split; [done|]. repeat split; congruence.
Qed.

(** C10: a dispatch changes nothing of a route whose method is not the
    request's, so a route keeps its stored prefix, path and matcher through
    any run of requests of other methods, whatever prefix the dispatchers
    were made with; and one table can hold routes with different
    prefixes. *)
Theorem other_methods_keep_prefix next this j R :
  this_routes this !! j = Some R →
  (∀ options ctx,
     ctx_method ctx ≠ r_method R →
     this_routes (d_this (dispatch options next this ctx)) !! j = Some R)
  ∧ (∀ requests : list (object * Context),
       Forall (λ req, ctx_method req.2 ≠ r_method R) requests →
       this_routes (dispatch_all next this requests) !! j = Some R)
  ∧ (∃ this' options ctx Rget Rpost,
       r_prefix Rget = r_prefix Rpost
       ∧ this_routes this' = [Rget; Rpost]
       ∧ ∃ Rget',
           this_routes (d_this (dispatch options next this' ctx)) = [Rget'; Rpost]
           ∧ r_method Rget' ≠ r_method Rpost
           ∧ r_prefix Rget' ≠ r_prefix Rpost).
Proof.
  intros Hj. split; [|split].
  - intros options ctx Hother.
    destruct (dispatch_lookup options next this ctx j R Hj)
      as (R1 & Hj1 & [->|[Hmethod _]]); done.
  - intros requests Hother. by apply dispatch_all_other_methods.
  - pose (never := (λ _ _, None) : matcher).
    pose (Rget := {| r_prefix := PStr "/a"; r_path := "/a/x";
                     r_pathname := "/x"; r_route := "/x"; r_match := never;
                     r_method := "GET"; r_middlewares := [];
                     r_params := None |}).
    pose (Rpost := {| r_prefix := PStr "/a"; r_path := "/a/x";
                      r_pathname := "/x"; r_route := "/x"; r_match := never;
                      r_method := "POST"; r_middlewares := [];
                      r_params := None |}).
    exists {| this_options := {[ "prefix" := PStr "/a" ]};
              this_route := λ _, never;
              this_routes := [Rget; Rpost] |},
           {[ "prefix" := PStr "/b" ]},
           {| ctx_method := "GET"; ctx_path := "/b/x"; ctx_route := None;
              ctx_params := None; ctx_body := "" |},
           Rget, Rpost.
    split; [done|]. split; [done|].
    eexists. rewrite dispatch_this. split; [reflexivity|]. done.
Qed.

End DispatchFacts.

(** *** The dispatcher on the demo router *)

Example dispatch_runs_chain_then_next :
  let D := Demo.run (this_options Demo.api3) Demo.api3
             (Demo.request "POST" "/api/users") in
  ctx_route (d_ctx D) = Some 1 ∧ ctx_body (d_ctx D) = "+!"
  ∧ d_outcome D = Fulfilled ∧ d_next_calls D = 1.
Proof. by repeat split. Qed.

Example dispatch_falls_through :
  let D := Demo.run (this_options Demo.api3) Demo.api3
             (Demo.request "GET" "/elsewhere") in
  ctx_route (d_ctx D) = None ∧ ctx_body (d_ctx D) = "!"
  ∧ d_chain_calls D = 0 ∧ d_next_calls D = 1.
Proof. by repeat split. Qed.

(** [GET /api/users/me] is accepted by the first route ([/users/:id]) and by
    the third ([/users/me]); the first one is taken. *)
Lemma dispatch_first_match_witness :
  this_routes Demo.api3 = [] ++ Demo.users_id :: [Demo.users_post; Demo.users_me]
  ∧ accepts Demo.createPrefix Demo.api3 (this_options Demo.api3)
      (Demo.request "GET" "/api/users/me") Demo.users_me = Some ∅
  ∧ let D := Demo.run (this_options Demo.api3) Demo.api3
               (Demo.request "GET" "/api/users/me") in
    r_pathname <$> (this_routes (d_this D) !! 0) = Some "/users/:id"
    ∧ d_chain_calls D = 1.
Proof.
  assert (this_routes Demo.api3 =
            [] ++ Demo.users_id :: [Demo.users_post; Demo.users_me]) as H1
    by reflexivity.
  assert (accepts Demo.createPrefix Demo.api3 (this_options Demo.api3)
            (Demo.request "GET" "/api/users/me") Demo.users_id
          = Some {[ "id" := "me" ]}) as H3 by (vm_compute; reflexivity).
  split; [exact H1|]. split; [vm_compute; reflexivity|].
  pose proof (dispatch_first_match Demo.createPrefix Demo.isGenerator
                Demo.convert Demo.compose (this_options Demo.api3) Demo.next
                Demo.api3 (Demo.request "GET" "/api/users/me")
                [] Demo.users_id [Demo.users_post; Demo.users_me]
                {[ "id" := "me" ]} H1 (Forall_nil_2 _) H3) as H.
  cbv zeta in H. destruct H as (Hlook & _ & _ & _ & Hcalls & _).
  cbv zeta. split; [|exact Hcalls].
  unfold Demo.run. cbn [List.length] in Hlook. rewrite Hlook. reflexivity.
Defined.

(** No route of [api3] is registered for [DELETE]. *)
Lemma dispatch_no_match_witness :
  let D := Demo.run (this_options Demo.api3) Demo.api3
             (Demo.request "DELETE" "/api/users/7") in
  d_next_calls D = 1 ∧ d_chain_calls D = 0
  ∧ (d_outcome D, d_ctx D) = Demo.next (Demo.request "DELETE" "/api/users/7").
Proof.
  assert (Forall (λ route, accepts Demo.createPrefix Demo.api3
                             (this_options Demo.api3)
                             (Demo.request "DELETE" "/api/users/7") route = None)
            (this_routes Demo.api3)) as Hnone
    by (repeat constructor).
  pose proof (dispatch_no_match Demo.createPrefix Demo.isGenerator
                Demo.convert Demo.compose (this_options Demo.api3) Demo.next
                Demo.api3 (Demo.request "DELETE" "/api/users/7") Hnone) as H.
  cbv zeta in H. destruct H as (Hnext & Hchain & Hend & _).
  cbv zeta. unfold Demo.run. by repeat split.
Defined.

(** The handler of [GET /boom] throws: the dispatch ends rejected and [next]
    is not called. *)
Lemma dispatch_then_next_witness :
  let D := Demo.run (this_options Demo.boom) Demo.boom
             (Demo.request "GET" "/api/boom") in
  d_outcome D = Rejected (VStr "boom") ∧ d_next_calls D = 0.
Proof.
  pose (found := for_of_routes Demo.createPrefix Demo.isGenerator Demo.convert
                   Demo.boom (this_options Demo.boom)
                   (Demo.request "GET" "/api/boom") 0 (this_routes Demo.boom)).
  assert (found = (found.1, Some (0, default Demo.no_route (found.1 !! 0))))
    as Hloop by (vm_compute; reflexivity).
  pose proof (dispatch_then_next Demo.createPrefix Demo.isGenerator
                Demo.convert Demo.compose (this_options Demo.boom) Demo.next
                Demo.boom (Demo.request "GET" "/api/boom") _ _ _ Hloop) as H.
  cbv zeta in H. destruct H as (_ & _ & _ & _ & Hrej & _).
  destruct (Hrej (VStr "boom")) as (Ho & _ & Hn); [vm_compute; reflexivity|].
  cbv zeta. unfold Demo.run. by split.
Defined.

(** [api3] was registered under [/api]; a dispatcher made with the prefix
    [/v2] rewrites the first route on a [GET] request, and a later [POST]
    request under the same prefix leaves it so. *)
Lemma prefix_rewrite_persists_witness :
  ∃ R',
    this_routes
      (dispatch_all Demo.createPrefix Demo.isGenerator Demo.convert Demo.compose
         Demo.next Demo.api3
         [({[ "prefix" := PStr "/v2" ]}, Demo.request "GET" "/v2/users/me");
          ({[ "prefix" := PStr "/v2" ]}, Demo.request "POST" "/v2/users")])
      !! 0 = Some R'
    ∧ r_prefix R' = PStr "/v2"
    ∧ r_path R' = "/v2/users/:id".
Proof.
  assert (this_routes Demo.api3 =
            [] ++ Demo.users_id :: [Demo.users_post; Demo.users_me]) as H1
    by reflexivity.
  destruct (prefix_rewrite_persists Demo.createPrefix Demo.isGenerator
              Demo.convert Demo.compose {[ "prefix" := PStr "/v2" ]} Demo.next
              Demo.api3 (Demo.request "GET" "/v2/users/me")
              [] Demo.users_id [Demo.users_post; Demo.users_me]
              [({[ "prefix" := PStr "/v2" ]}, Demo.request "POST" "/v2/users")]
              H1 (Forall_nil_2 _))
    as (R' & Hlook & Hprefix & Hpath & _).
  - reflexivity.
  - vm_compute. discriminate.
  - repeat constructor.
  - exists R'. split; [exact Hlook|]. split; [exact Hprefix|exact Hpath].
Defined.

(** Two [GET] requests through a [/v2] dispatcher leave the [POST] route of
    [api3] under [/api]. *)
Lemma other_methods_keep_prefix_witness :
  this_routes
    (dispatch_all Demo.createPrefix Demo.isGenerator Demo.convert Demo.compose
       Demo.next Demo.api3
       [({[ "prefix" := PStr "/v2" ]}, Demo.request "GET" "/v2/users/me");
        ({[ "prefix" := PStr "/v2" ]}, Demo.request "GET" "/v2/nothing")])
    !! 1 = Some Demo.users_post
  ∧ r_prefix Demo.users_post = PStr "/api".
Proof.
  split; [|reflexivity].
  apply (other_methods_keep_prefix Demo.createPrefix Demo.isGenerator
           Demo.convert Demo.compose Demo.next Demo.api3 1 Demo.users_post
           eq_refl).
  repeat constructor; vm_compute; discriminate.
Defined.

(** * middleware and legacyMiddleware *)

Lemma extend_two (o1 o2 : object) :
  extend ∅ [AObj o1; AObj o2] = o2 ∪ (o1 ∪ ∅).
Proof. reflexivity. Qed.

Lemma middleware_fuel_S (fuel : nat) (this : Router) (opts : jsarg) :
  middleware_fuel (S fuel) this opts =
    let options := extend ∅ [AObj (this_options this);
                             AObj (normalize_opts opts)] in
    let this' := {| this_options := options;
                    this_route := this_route this;
                    this_routes := this_routes this |} in
    if truthy_prim (get (this_options this') "legacy")
    then legacyMiddleware_fuel fuel this'
    else Some (this', Modern options).
Proof. reflexivity. Qed.

Lemma legacyMiddleware_fuel_S (fuel : nat) (this : Router) :
  legacyMiddleware_fuel (S fuel) this =
    match middleware_fuel fuel this (APrim PUndef) with
    | Some (this, fn) => Some (this, ConvertBack fn)
    | None => None
    end.
Proof. reflexivity. Qed.

(** After the first two statements of [middleware], [opts.legacy] is a
    boolean. *)
Lemma normalize_opts_legacy (opts : jsarg) :
  ∃ b, normalize_opts opts !! "legacy" = Some (PBool b).
Proof.
  unfold normalize_opts.
  match goal with
  | |- ∃ b, <[ _ := ?v ]> _ !! _ = _ =>
      assert (∃ b, v = PBool b) as [b Hb]
  end.
  { match goal with |- ∃ b, match ?g with _ => _ end = _ => destruct g end;
      by eexists. }
  exists b. rewrite Hb. apply lookup_insert_eq.
Qed.

(** So is [this.options.legacy] once [middleware] has merged [opts] over
    the router's options. *)
Lemma merged_legacy_boolean (this : Router) (opts : jsarg) :
  ∃ b, get (extend ∅ [AObj (this_options this); AObj (normalize_opts opts)])
         "legacy" = PBool b.
Proof.
  destruct (normalize_opts_legacy opts) as [b Hb]. exists b.
  rewrite extend_two. unfold get.
  by rewrite (lookup_union_Some_l _ _ _ (PBool b)).
Qed.

(** With no argument, [opts] is [{ legacy: false }]. *)
Lemma normalize_opts_undefined :
  normalize_opts (APrim PUndef) = {[ "legacy" := PBool false ]}.
Proof.
  unfold normalize_opts. simpl.
  apply map_eq. intros k.
  destruct (decide (k = "legacy")) as [->|Hne].
  - by rewrite lookup_insert_eq, lookup_singleton_eq.
  - by rewrite lookup_insert_ne, !lookup_singleton_ne.
Qed.

(** [legacyMiddleware]'s call [this.middleware()] builds the modern
    dispatcher, over the options it finds with [legacy] set to [false]. *)
Lemma middleware_undefined (fuel : nat) (this : Router) :
  let options := extend ∅ [AObj (this_options this);
                           AObj (normalize_opts (APrim PUndef))] in
  get options "legacy" = PBool false
  ∧ (∀ k, k ≠ "legacy" → get options k = get (this_options this) k)
  ∧ middleware_fuel (S fuel) this (APrim PUndef) =
      Some ({| this_options := options;
               this_route := this_route this;
               this_routes := this_routes this |}, Modern options).
Proof.
  intros options.
  assert (get options "legacy" = PBool false) as Hlegacy.
  { subst options. rewrite extend_two, normalize_opts_undefined.
    unfold get. by rewrite (lookup_union_Some_l _ _ _ (PBool false))
      by apply lookup_singleton_eq. }
  split; [done|]. split.
  - intros k Hk. subst options.
    rewrite extend_two, normalize_opts_undefined. unfold get.
    rewrite lookup_union_r by (by apply lookup_singleton_ne).
    by rewrite map_union_empty.
  - cbn [middleware_fuel]. fold options. cbn [this_options].
    by rewrite Hlegacy.
Qed.

(** C8: when the merged options have [legacy] true, [middleware(opts)]
    returns what [legacyMiddleware()] returns on the router with the merged
    options; the call of [middleware()] inside [legacyMiddleware] finds
    [legacy] false and builds the modern dispatcher, so the calls end at
    depth three: the result is [convert.back] of that dispatcher, for every
    fuel from three on. *)
Theorem middleware_legacy_terminates (this : Router) (opts : jsarg) :
  let options := extend ∅ [AObj (this_options this); AObj (normalize_opts opts)] in
  let this' := {| this_options := options;
                  this_route := this_route this;
                  this_routes := this_routes this |} in
  let inner := extend ∅ [AObj options; AObj (normalize_opts (APrim PUndef))] in
  let this'' := {| this_options := inner;
                   this_route := this_route this;
                   this_routes := this_routes this |} in
  truthy_prim (get options "legacy") = true →
  (∀ fuel, middleware_fuel (S fuel) this opts = legacyMiddleware_fuel fuel this')
  ∧ truthy_prim (get inner "legacy") = false
  ∧ get inner "prefix" = get options "prefix"
  ∧ (∀ fuel, legacyMiddleware_fuel (S (S fuel)) this' =
               Some (this'', ConvertBack (Modern inner)))
  ∧ (∀ fuel, middleware_fuel (S (S (S fuel))) this opts =
               Some (this'', ConvertBack (Modern inner)))
  ∧ middleware this opts = Some (this'', ConvertBack (Modern inner)).
Proof.
  intros options this' inner this'' Hlegacy.
  assert (∀ fuel, middleware_fuel (S fuel) this opts
                  = legacyMiddleware_fuel fuel this') as Hout.
  { intros fuel. cbn [middleware_fuel]. fold options. cbn [this_options].
    by rewrite Hlegacy. }
  destruct (middleware_undefined 0 this') as (Hin & Hkeep & _).
  cbv zeta in Hin, Hkeep. cbn [this_options this'] in Hin, Hkeep.
  fold inner in Hin, Hkeep.
  assert (∀ fuel, legacyMiddleware_fuel (S (S fuel)) this' =
                  Some (this'', ConvertBack (Modern inner))) as Hleg.
  { intros fuel. cbn [legacyMiddleware_fuel].
    destruct (middleware_undefined fuel this') as (_ & _ & ->). done. }
  split; [done|]. split; [by rewrite Hin|]. split; [by apply Hkeep|].
  split; [done|]. split.
  - intros fuel. by rewrite Hout.
  - unfold middleware. by rewrite Hout.
Qed.

(** [middleware] returns for every argument: three levels of calls are
    enough, and more fuel changes nothing. *)
Lemma middleware_total (this : Router) (opts : jsarg) (fuel : nat) :
  is_Some (middleware this opts)
  ∧ middleware_fuel (S (S (S fuel))) this opts = middleware this opts.
Proof.
  unfold middleware.
  rewrite (middleware_fuel_S (S (S fuel)) this opts),
    (middleware_fuel_S 2 this opts).
  cbv zeta. cbn [this_options].
  destruct (truthy_prim _); [|by split].
  rewrite !legacyMiddleware_fuel_S.
  match goal with
  | |- context [middleware_fuel (S fuel) ?t _] =>
      destruct (middleware_undefined fuel t) as (_ & _ & ->);
      destruct (middleware_undefined 0 t) as (_ & _ & ->)
  end.
  by split.
Qed.

(** With [legacy] false after the merge, [middleware] returns the arrow
    function closed over the merged options, which are also the router's
    options from then on. *)
Lemma middleware_modern (this : Router) (opts : jsarg) :
  let options := extend ∅ [AObj (this_options this); AObj (normalize_opts opts)] in
  truthy_prim (get options "legacy") = false →
  middleware this opts =
    Some ({| this_options := options;
             this_route := this_route this;
             this_routes := this_routes this |}, Modern options).
Proof.
  intros options Hlegacy. unfold middleware.
  rewrite middleware_fuel_S. cbv zeta. cbn [this_options].
  fold options. by rewrite Hlegacy.
Qed.

(** A [legacy] flag among the router's options does not survive a call of
    [middleware()] without argument: [opts.legacy] is then [false] and is
    merged over it, so the modern dispatcher is returned. *)
Lemma stored_legacy_overridden (this : Router) :
  ∃ this' options,
    middleware this (APrim PUndef) = Some (this', Modern options)
    ∧ get options "legacy" = PBool false
    ∧ get options "prefix" = get (this_options this) "prefix".
Proof.
  destruct (middleware_undefined 2 this) as (Hlegacy & Hkeep & Hmw).
  eexists _, _. split; [exact Hmw|]. split; [exact Hlegacy|].
  by apply Hkeep.
Qed.

Example legacy_router_gets_modern_dispatcher :
  ∃ this' options,
    middleware (KoaBetterRouter Demo.pathMatch
                  (AObj {[ "legacy" := PBool true ]})) (APrim PUndef)
      = Some (this', Modern options).
Proof. by eexists _, _. Qed.

Example middleware_prefix_override :
  ∃ this' options,
    middleware Demo.api (AObj {[ "prefix" := PStr "/foo"; "legacy" := PNum 1 ]})
      = Some (this', Modern options)
    ∧ get options "prefix" = PStr "/foo"
    ∧ get options "legacy" = PBool false
    ∧ this_options this' = options.
Proof. eexists _, _. by repeat split. Qed.

(** [middleware(true)] on the demo router. *)
Lemma middleware_legacy_terminates_witness :
  ∃ this'' inner,
    middleware Demo.api (APrim (PBool true)) =
      Some (this'', ConvertBack (Modern inner))
    ∧ get inner "legacy" = PBool false
    ∧ get inner "prefix" = PStr "/api".
Proof.
  pose proof (middleware_legacy_terminates Demo.api (APrim (PBool true))) as H.
  cbv zeta in H. destruct H as (_ & _ & _ & _ & _ & H); [reflexivity|].
  eexists _, _. split; [exact H|]. split; reflexivity.
Defined.

(** * loadMethods *)

Lemma upper_ascii_idemp (c : ascii) :
  upper_ascii (upper_ascii c) = upper_ascii c.
Proof. destruct c as [[] [] [] [] [] [] [] []]; reflexivity. Qed.


Lemma toUpperCase_idemp (s : string) :
  toUpperCase (toUpperCase s) = toUpperCase s.
Proof.
  induction s as [|c s IH]; [done|].
  simpl. by rewrite upper_ascii_idemp, IH.
Qed.


Section LoadMethodsFacts.

Variable methods : list string.
Variable pathMatch : object → string → matcher.

Local Abbreviation verb k := (PropFunction (httpVerbMethod (toUpperCase k))).

(** After the [forEach], a key that is a verb of the list or the upper
    case of one holds the closure made for its upper case. *)
Lemma install_verbs_lookup (ms : list string) (proto : gmap string property)
    (k : string) :
  (∃ m, m ∈ ms ∧ (k = m ∨ k = toUpperCase m)) →
  foldl install_verb proto ms !! k = Some (verb k).
Proof.
  induction ms as [|x ms IH] using rev_ind; intros (m & Hm & Hk).
  - by apply elem_of_nil in Hm.
  - rewrite foldl_app. simpl. unfold install_verb at 1.
    destruct (decide (k = x)) as [->|Hkx]; [by rewrite lookup_insert_eq|].
    rewrite lookup_insert_ne by done.
    destruct (decide (k = toUpperCase x)) as [->|Hkux].
    { rewrite lookup_insert_eq. by rewrite toUpperCase_idemp. }
    rewrite lookup_insert_ne by done.
    apply IH. exists m. split; [|done].
    apply elem_of_app in Hm as [Hm|Hm]; [done|].
    apply list_elem_of_singleton in Hm as ->. by destruct Hk.
Qed.

(** The other keys of the prototype keep what they held. *)
Lemma install_verbs_other (ms : list string) (proto : gmap string property)
    (k : string) :
  (∀ m, m ∈ ms → k ≠ m ∧ k ≠ toUpperCase m) →
  foldl install_verb proto ms !! k = proto !! k.
Proof.
  induction ms as [|x ms IH] using rev_ind; intros Hk; [done|].
  rewrite foldl_app. simpl. unfold install_verb at 1.
  destruct (Hk x) as [Hkx Hkux]; [apply elem_of_app; right; by left|].
  rewrite !lookup_insert_ne by done.
  apply IH. intros m Hm. apply Hk. apply elem_of_app. by left.
Qed.

(** [loadMethods()] writes only under the verbs, their upper case and
    [del]: every other entry of the prototype ([addRoute], [middleware],
    ...) is the one it was. *)
Lemma loadMethods_other_keys (p : Program) (this : nat) (k : string) :
  (∀ m, m ∈ methods → k ≠ m ∧ k ≠ toUpperCase m) →
  k ≠ "del" →
  prototype (loadMethods methods p this).1 !! k = prototype p !! k.
Proof.
  intros Hk Hdel. simpl. rewrite lookup_insert_ne by done.
  by apply install_verbs_other.
Qed.


(** The lowercase name [options] is an own property of every instance:
    reading it gives the configuration object, whatever the prototype
    holds under that name, so the verb method for [options] is reached
    only as [OPTIONS]. *)
Lemma options_shadowed (p : Program) (this : nat) (instance : Router) :
  let p' := (loadMethods methods p this).1 in
  lookup_property (prototype p') instance "options"
    = OwnOptions (this_options instance)
  ∧ ("options" ∈ methods →
       prototype p' !! "options" = Some (PropFunction (httpVerbMethod "OPTIONS"))
       ∧ lookup_property (prototype p') instance "OPTIONS"
           = FromPrototype (PropFunction (httpVerbMethod "OPTIONS"))).
Proof.
  intros p'. split; [done|]. intros Hin.
  assert (∀ k, k = "options" ∨ k = "OPTIONS" →
               prototype p' !! k = Some (PropFunction (httpVerbMethod "OPTIONS")))
    as Hk.
  { intros k Hk. subst p'. simpl.
    rewrite lookup_insert_ne by (by destruct Hk as [->| ->]).
    rewrite install_verbs_lookup.
    - by destruct Hk as [->| ->].
    - exists "options". split; [done|]. destruct Hk as [->| ->]; [by left|by right]. }
  split; [by apply Hk; left|].
  unfold lookup_property. simpl. unfold proto_get.
  by rewrite Hk by (by right).
Qed.

End LoadMethodsFacts.

(** [router.get('/x', h)] once the methods are loaded: the route is added
    for [GET]. *)
Example verb_sugar_adds_route :
  httpVerbMethod_call Demo.createPrefix "GET" Demo.api [VStr "/x"; VFun 2]
    = addRoute Demo.createPrefix Demo.api [VStr "GET"; VStr "/x"; VFun 2].
Proof. reflexivity. Qed.


(** * More on registration *)

Lemma split_no_sep (sep : ascii) (s : string) :
  contains sep s = false → split sep s = [s].
Proof.
  induction s as [|c s IH]; [done|]. simpl.
  intros [Hc Hs]%orb_false_elim. rewrite Hc. by rewrite IH.
Qed.

(** Up to the first separator, the text is the first piece. *)
Lemma split_app_sep (sep : ascii) (a b : string) :
  contains sep a = false →
  split sep (String.append a (String sep b)) = a :: split sep b.
Proof.
  induction a as [|c a IH]; simpl.
  - intros _. by rewrite Ascii.eqb_refl.
  - intros [Hc Ha]%orb_false_elim. rewrite Hc. by rewrite IH.
Qed.

Lemma split_not_nil (sep : ascii) (s : string) : split sep s ≠ [].
Proof.
  destruct s as [|c s]; [done|]. simpl.
  destruct (Ascii.eqb c sep); [done|]. by destruct (split sep s).
Qed.

Lemma upper_ascii_space (c : ascii) :
  Ascii.eqb (upper_ascii c) " " = Ascii.eqb c " ".
Proof. destruct c as [[] [] [] [] [] [] [] []]; reflexivity. Qed.

Lemma contains_space_toUpperCase (s : string) :
  contains " " (toUpperCase s) = contains " " s.
Proof.
  induction s as [|c s IH]; [done|]. simpl.
  by rewrite upper_ascii_space, IH.
Qed.

Lemma toUpperCase_empty (s : string) : toUpperCase s = "" → s = "".
Proof. by destruct s. Qed.

Lemma parsed_method_not_empty (m : string) : parsed_method m ≠ "".
Proof.
  unfold parsed_method. destruct (split " " m !! 0) as [p|]; [|done].
  by destruct (String.eqb_spec p "").
Qed.


Section MoreRegistration.

Variable createPrefix : prim → string → string.

(** The fields of a route [createRoute] returns. *)
Lemma createRoute_fields (this : Router) (arguments : list value)
    (route : Route) :
  createRoute createPrefix this arguments = inr route →
  ∃ m,
    argument arguments 0 = VStr m
    ∧ resolved_route (VStr m) (argument arguments 1) = VStr (r_pathname route)
    ∧ r_method route = toUpperCase (parsed_method m)
    ∧ r_prefix route = get (this_options this) "prefix"
    ∧ r_path route = createPrefix (r_prefix route) (r_pathname route)
    ∧ r_match route = this_route this (r_path route)
    ∧ r_route route = r_pathname route
    ∧ r_params route = None
    ∧ r_middlewares route =
        leading_handlers (argument arguments 1)
        ++ arrayify (argument arguments 2) ++ drop 3 arguments.
Proof.
  unfold createRoute, parsed_method.
  destruct (argument arguments 0) as [| | | | m | |]; try discriminate.
  intros Hok. exists m. split; [done|].
  destruct (argument arguments 1) as [| | | | s | f | l];
    simpl in Hok |- *; try discriminate.
  - injection Hok as <-. done.
  - unfold part1 in *. destruct (split " " m !! 1) as [p|]; [|discriminate].
    injection Hok as <-. done.
  - unfold part1 in *. destruct (split " " m !! 1) as [p|]; [|discriminate].
    injection Hok as <-. done.
Qed.

(** The combined form [createRoute('VERB /pattern', h, ...)] with function
    handlers is the call [createRoute('VERB', '/pattern', h, ...)], where the
    pattern is the text between the first space and the next one. *)
Theorem createRoute_combined_form (this : Router) (m p : string) (f : nat)
    (rest : list value) :
  contains " " m = false →
  Forall (λ v, typeof v = TFunction) rest →
  createRoute createPrefix this
    (VStr (String.append m (String " " p)) :: VFun f :: rest)
  = createRoute createPrefix this
      (VStr m :: VStr (default "" (head (split " " p))) :: VFun f :: rest).
Proof.
  intros Hm Hrest. unfold createRoute, argument.
  cbn [lookup list_lookup default from_option id]. cbv beta iota zeta.
  rewrite split_app_sep, (split_no_sep " " m) by done.
  destruct (split " " p) as [|p0 ps] eqn:Hp; [by apply split_not_nil in Hp|].
  cbn [lookup list_lookup default from_option id head part1 drop].
  destruct Hrest as [|v rest Hv Hrest]; [done|].
  destruct v; try discriminate. done.
Qed.


(** At registration the verb is read without regard to case, and an empty
    verb stands for [GET]: a method string without space can be replaced by
    its upper case ([GET] for the empty string) in any call. *)
Theorem createRoute_method_any_case (this : Router) (m : string)
    (rest : list value) :
  contains " " m = false →
  createRoute createPrefix this (VStr m :: rest)
  = createRoute createPrefix this
      (VStr (toUpperCase (if String.eqb m "" then "get" else m)) :: rest).
Proof.
  intros Hm.
  assert (contains " " (toUpperCase (if String.eqb m "" then "get" else m))
          = false) as Hup.
  { rewrite contains_space_toUpperCase. by destruct (String.eqb m ""). }
  unfold createRoute, argument.
  cbn [lookup list_lookup default from_option id]. cbv beta iota zeta.
  rewrite (split_no_sep " " m), (split_no_sep " " (toUpperCase _)) by done.
  cbn [lookup list_lookup].
  destruct (String.eqb_spec (toUpperCase (if String.eqb m "" then "get" else m)) "")
    as [Hempty|_]; [|by rewrite toUpperCase_idemp].
  apply toUpperCase_empty in Hempty.
  destruct (String.eqb_spec m ""); [discriminate Hempty|done].
Qed.

(** The options of a new router: the keys of the object given, and the
    prefix [/] when it has no [prefix] key (a key given as [undefined]
    stays [undefined]); anything but an object gives the defaults; the table
    is empty. *)
Theorem constructor_options (pathMatch : object → string → matcher)
    (options : jsarg) (k : string) :
  let this := KoaBetterRouter pathMatch options in
  let given := match options with
               | AObj o => o !! k
               | APrim _ => None
               end in
  get (this_options this) k
    = default (if decide (k = "prefix") then PStr "/" else PUndef) given
  ∧ this_routes this = []
  ∧ this_route this = pathMatch (this_options this).
Proof.
  cbv zeta. split; [|done]. unfold KoaBetterRouter, extend, get. simpl.
  destruct options as [o|p].
  - rewrite lookup_union. destruct (o !! k) as [v|] eqn:Ho; simpl.
    + by destruct ({[ "prefix" := PStr "/" ]} !! k).
    + case_decide as Hk.
      * subst k. by rewrite lookup_singleton_eq.
      * by rewrite lookup_singleton_ne.
  - case_decide as Hk.
    + subst k. by rewrite lookup_singleton_eq.
    + by rewrite lookup_singleton_ne.
Qed.

End MoreRegistration.


(** [createRoute('post', '/x', h)] is [createRoute('POST', '/x', h)]. *)
Lemma createRoute_method_any_case_witness :
  createRoute Demo.createPrefix Demo.api [VStr "post"; VStr "/x"; VFun 2]
  = createRoute Demo.createPrefix Demo.api [VStr "POST"; VStr "/x"; VFun 2].
Proof.
  apply (createRoute_method_any_case Demo.createPrefix Demo.api "post"
           [VStr "/x"; VFun 2]).
  reflexivity.
Defined.

(** [createRoute('GET /a b', h1, h2)]: the pattern is [/a]. *)
Lemma createRoute_combined_form_witness :
  createRoute Demo.createPrefix Demo.api [VStr "GET /a b"; VFun 1; VFun 2]
  = createRoute Demo.createPrefix Demo.api
      [VStr "GET"; VStr "/a"; VFun 1; VFun 2].
Proof.
  apply (createRoute_combined_form Demo.createPrefix Demo.api "GET" "/a b" 1
           [VFun 2]); [reflexivity|].
  repeat constructor.
Defined.

(** * More on middleware *)

Lemma normalize_opts_lookup_legacy (opts : jsarg) :
  normalize_opts opts !! "legacy" = Some (PBool (asked_legacy opts)).
Proof.
  unfold normalize_opts. rewrite lookup_insert_eq. f_equal.
  destruct opts as [o|p].
  - unfold extend, get. simpl. rewrite lookup_union.
    destruct (o !! "legacy") as [[| |b| |]|] eqn:Ho; simpl; rewrite ?Ho;
      by rewrite ?lookup_singleton_eq.
  - destruct p; simpl; unfold get; by rewrite lookup_singleton_eq.
Qed.

Lemma normalize_opts_lookup_other (opts : jsarg) (k : string) :
  k ≠ "legacy" →
  normalize_opts opts !! k =
    match opts with
    | AObj o => o !! k
    | APrim _ => None
    end.
Proof.
  intros Hk. unfold normalize_opts. rewrite lookup_insert_ne by done.
  destruct opts as [o|p].
  - unfold extend. simpl. rewrite lookup_union.
    rewrite lookup_singleton_ne by done. by destruct (o !! k).
  - destruct p; simpl; by rewrite lookup_singleton_ne.
Qed.

(** What [middleware(opts)] returns and leaves behind, for every argument:
    the router's options become the old ones with the keys of an [opts]
    object written over them and [legacy] set to [false]; the routes and the
    compiler stay; the result is the modern dispatcher over these options,
    wrapped once by [convert.back] exactly when [opts] asked for legacy. *)
Theorem middleware_result (this : Router) (opts : jsarg) :
  ∃ options,
    middleware this opts =
      Some ({| this_options := options;
               this_route := this_route this;
               this_routes := this_routes this |},
            if asked_legacy opts then ConvertBack (Modern options)
            else Modern options)
    ∧ get options "legacy" = PBool false
    ∧ ∀ k, k ≠ "legacy" →
        get options k =
          match opts with
          | AObj o => default (get (this_options this) k) (o !! k)
          | APrim _ => get (this_options this) k
          end.
Proof.
  pose (merged := extend ∅ [AObj (this_options this);
                            AObj (normalize_opts opts)]).
  assert (get merged "legacy" = PBool (asked_legacy opts)) as Hlegacy.
  { subst merged. rewrite extend_two. unfold get.
    by rewrite (lookup_union_Some_l _ _ _ _ (normalize_opts_lookup_legacy opts)). }
  assert (∀ k, k ≠ "legacy" →
            get merged k =
              match opts with
              | AObj o => default (get (this_options this) k) (o !! k)
              | APrim _ => get (this_options this) k
              end) as Hother.
  { intros k Hk. subst merged. rewrite extend_two. unfold get.
    rewrite lookup_union, map_union_empty.
    rewrite normalize_opts_lookup_other by done.
    destruct opts as [o|p]; [|by destruct (this_options this !! k)].
    destruct (o !! k); [|by destruct (this_options this !! k)].
    by destruct (this_options this !! k). }
  destruct (asked_legacy opts) eqn:Hasked.
  - pose (this' := {| this_options := merged;
                      this_route := this_route this;
                      this_routes := this_routes this |}).
    destruct (middleware_undefined 0 this') as (Hin & Hkeep & Hmw).
    cbv zeta in Hin, Hkeep, Hmw. cbn [this_options this_route this_routes this']
      in Hin, Hkeep, Hmw.
    eexists. split; [|split; [exact Hin|]].
    + unfold middleware. rewrite middleware_fuel_S. cbv zeta.
      cbn [this_options]. fold merged. rewrite Hlegacy. cbn [truthy_prim].
      rewrite legacyMiddleware_fuel_S. fold this'. by rewrite Hmw.
    + intros k Hk. rewrite Hkeep by done. by apply Hother.
  - exists merged. split; [|split; [done|done]].
    apply middleware_modern. fold merged. by rewrite Hlegacy.
Qed.

(** [middleware] changes neither the table nor the compiler. *)
Lemma middleware_keeps_table (this this' : Router) (opts : jsarg)
    (fn : middleware_fn) :
  middleware this opts = Some (this', fn) →
  this_route this' = this_route this ∧ this_routes this' = this_routes this.
Proof.
  unfold middleware. rewrite middleware_fuel_S. cbv zeta. cbn [this_options].
  destruct (truthy_prim _).
  - rewrite legacyMiddleware_fuel_S.
    match goal with
    | |- context [middleware_fuel 1 ?t _] =>
        destruct (middleware_undefined 0 t) as (_ & _ & ->)
    end.
    by intros [= <- _].
  - by intros [= <- _].
Qed.

Example middleware_result_object :
  ∃ this' options,
    middleware Demo.api
      (AObj {[ "prefix" := PStr "/v2"; "legacy" := PBool true;
               "strict" := PBool true ]})
      = Some (this', ConvertBack (Modern options))
    ∧ this_options this' = options
    ∧ get options "prefix" = PStr "/v2"
    ∧ get options "strict" = PBool true
    ∧ get options "legacy" = PBool false.
Proof. eexists _, _. by repeat split. Qed.

(** * The life of a router *)

Section LifeFacts.

Variable createPrefix : prim → string → string.
Variable isGenerator : value → bool.
Variable convert : value → value.
Variable compose : list value → Context → outcome * Context.

Local Ltac unfold_rewrite_prefix := unfold rewrite_prefix.
Local Ltac unfold_accepts := unfold accepts.
Local Ltac unfold_passed_over := unfold passed_over.
Local Ltac unfold_route_wf := unfold route_wf.
Local Ltac unfold_router_wf := unfold router_wf in *.
Local Ltac unfold_run_ops := unfold run_ops.
Local Ltac unfold_apply_op := unfold apply_op; cbv beta iota.
Local Ltac unfold_on_match := unfold on_match.
Local Ltac unfold_dispatch := unfold dispatch.
Local Ltac unfold_selected := unfold selected.
Local Ltac unfold_static_accepts := unfold static_accepts.

Local Abbreviation rewrite_prefix := (rewrite_prefix createPrefix).
Local Abbreviation on_match := (on_match isGenerator convert).
Local Abbreviation for_of_routes := (for_of_routes createPrefix isGenerator convert).
Local Abbreviation accepts := (accepts createPrefix).
Local Abbreviation passed_over := (passed_over createPrefix).
Local Abbreviation route_step := (route_step createPrefix isGenerator convert).
Local Abbreviation dispatch := (dispatch createPrefix isGenerator convert compose).
Local Abbreviation dispatch_all :=
  (dispatch_all createPrefix isGenerator convert compose).
Local Abbreviation route_wf := (route_wf createPrefix).
Local Abbreviation router_wf := (router_wf createPrefix).
Local Abbreviation apply_op := (apply_op createPrefix isGenerator convert compose).
Local Abbreviation run_ops := (run_ops createPrefix isGenerator convert compose).
Local Abbreviation static_accepts := (static_accepts createPrefix).
Local Abbreviation select := (select createPrefix).
Local Abbreviation selected := (selected createPrefix isGenerator convert).

Implicit Types (this : Router) (options : object) (ctx : Context)
  (route R : Route) (routes : list Route) (m : params)
  (next : Context → outcome * Context).

(** *** One run of the loop, route by route *)

Lemma for_of_routes_steps this options ctx routes i :
  Forall2 (route_step this options ctx) routes
    (for_of_routes this options ctx i routes).1.
Proof.
  revert i. induction routes as [|route rest IH]; intros i; [constructor|].
  destruct (accepts this options ctx route) as [m|] eqn:Hacc.
  - rewrite (for_of_routes_hit _ _ _ _ _ _ _ _ _ m Hacc). simpl.
    constructor.
    + right. revert Hacc. unfold_accepts.
      destruct (String.eqb_spec (ctx_method ctx) (r_method route));
        [|discriminate].
      intros _. split; [done|]. right. by exists m.
    + apply Forall2_same_length_lookup_2; [done|]. intros j x y Hx Hy.
      left. congruence.
  - rewrite for_of_routes_skip by done. simpl. constructor; [|apply IH].
    unfold_passed_over.
    destruct (String.eqb_spec (ctx_method ctx) (r_method route)).
    + right. split; [done|]. by left.
    + by left.
Qed.

(** The loop reads the router only for its compiler. *)
Lemma for_of_routes_ext this this' options ctx routes i :
  this_route this' = this_route this →
  for_of_routes this' options ctx i routes
  = for_of_routes this options ctx i routes.
Proof.
  intros Hroute. revert i.
  induction routes as [|route rest IH]; intros i; [done|].
  simpl. rewrite !IH. unfold_rewrite_prefix. by rewrite Hroute.
Qed.

Lemma route_step_signature this options ctx R R' :
  route_step this options ctx R R' →
  r_method R' = r_method R ∧ r_pathname R' = r_pathname R
  ∧ r_route R' = r_route R
  ∧ List.length (r_middlewares R') = List.length (r_middlewares R).
Proof.
  intros [->|[_ [->|[m ->]]]]; [done| |];
    unfold_rewrite_prefix; case_decide; simpl; by rewrite ?length_map.
Qed.

Lemma route_step_wf this this' options ctx R R' :
  this_route this' = this_route this →
  route_wf this R → route_step this options ctx R R' → route_wf this' R'.
Proof.
  unfold_route_wf. intros Hroute (Hpath & Hmatch & Hr & Hup & Hne) Hstep.
  rewrite Hroute.
  destruct Hstep as [->|[_ [->|[m ->]]]]; [done| |];
    unfold_rewrite_prefix; case_decide; simpl; done.
Qed.

(** *** The invariant *)

Lemma createRoute_wf this arguments route :
  createRoute createPrefix this arguments = inr route → route_wf this route.
Proof.
  intros Hcr.
  destruct (createRoute_fields createPrefix this arguments route Hcr)
    as (m & _ & _ & Hmethod & _ & Hpath & Hmatch & Hroute & _).
  unfold_route_wf. rewrite Hmethod.
  split; [done|]. split; [done|]. split; [done|].
  split; [apply toUpperCase_idemp|].
  intros Hempty. apply toUpperCase_empty in Hempty.
  by apply parsed_method_not_empty in Hempty.
Qed.

Lemma route_wf_ext this this' route :
  this_route this' = this_route this → route_wf this route → route_wf this' route.
Proof. unfold_route_wf. by intros ->. Qed.

Lemma apply_op_wf this op :
  router_wf this →
  router_wf (apply_op this op)
  ∧ this_route (apply_op this op) = this_route this.
Proof.
  unfold_router_wf. intros Hwf.
  destruct op as [arguments|opts|options next ctx]; unfold_apply_op.
  - unfold addRoute.
    destruct (createRoute createPrefix this arguments) as [e|route] eqn:Hcr;
      [done|].
    split; [|done]. simpl. apply Forall_app. split.
    + eapply Forall_impl; [exact Hwf|]. intros r. by apply route_wf_ext.
    + apply Forall_singleton. apply (route_wf_ext this); [done|].
      by eapply createRoute_wf.
  - destruct (middleware this opts) as [[this' fn]|] eqn:Hmw; [|by split].
    destruct (middleware_keeps_table this this' opts fn Hmw) as [Hroute Hroutes].
    split; [|done]. rewrite Hroutes.
    eapply Forall_impl; [exact Hwf|]. intros r. by apply route_wf_ext.
  - rewrite dispatch_this. simpl. split; [|done].
    pose proof (for_of_routes_steps this options ctx (this_routes this) 0)
      as Hsteps.
    apply Forall_lookup. intros j R' HR'.
    destruct (Forall2_lookup_r _ _ _ _ _ Hsteps HR') as (R & HR & Hstep).
    eapply (route_step_wf this); [done| |exact Hstep].
    by eapply (proj1 (Forall_lookup _ _) Hwf).
Qed.

Lemma run_ops_keeps this ops :
  router_wf this →
  router_wf (run_ops this ops)
  ∧ this_route (run_ops this ops) = this_route this.
Proof.
  unfold_run_ops. revert this.
  induction ops as [|op ops IH]; intros this Hwf; [done|].
  simpl. destruct (apply_op_wf this op Hwf) as [Hwf' Hroute].
  destruct (IH _ Hwf') as [Hwf'' Hroute'']. split; [done|congruence].
Qed.

(** Whatever a program does with a router after constructing it (adding
    routes, also failed attempts, making dispatchers with any options,
    dispatching any requests), every route object of the table keeps its
    derived fields in agreement: the path is the pattern under the stored
    prefix, the matcher is the one the router's compiler gives for that path,
    and the method is a non-empty upper-case string. *)
Theorem run_ops_wf (pathMatch : object → string → matcher) (options : jsarg)
    (ops : list operation) :
  router_wf (run_ops (KoaBetterRouter pathMatch options) ops).
Proof. apply run_ops_keeps. unfold_router_wf. apply Forall_nil_2. Qed.

(** The compiler of patterns is made once, from the constructor's options:
    options given to [middleware] later never reach it. *)
Theorem compiler_fixed_at_construction (pathMatch : object → string → matcher)
    (options : jsarg) (ops : list operation) :
  this_route (run_ops (KoaBetterRouter pathMatch options) ops)
  = pathMatch (extend {[ "prefix" := PStr "/" ]} [options]).
Proof.
  destruct (run_ops_keeps (KoaBetterRouter pathMatch options) ops) as [_ ->];
    [|done].
  unfold_router_wf. apply Forall_nil_2.
Qed.

(** *** Methods are compared as written *)

(** A request whose method has a lowercase letter, or is empty, is taken by
    no route of a well-formed table: the table is left exactly as it was and
    the request goes to [next]. *)
Theorem method_case_sensitive options next this ctx :
  router_wf this →
  toUpperCase (ctx_method ctx) ≠ ctx_method ctx ∨ ctx_method ctx = "" →
  let D := dispatch options next this ctx in
  d_this D = this
  ∧ d_chain_calls D = 0
  ∧ d_next_calls D = 1
  ∧ (d_outcome D, d_ctx D) = next ctx.
Proof.
  intros Hwf Hmethod D. unfold_router_wf.
  assert (Forall (λ route, String.eqb (ctx_method ctx) (r_method route) = false)
            (this_routes this)) as Hdiff.
  { eapply Forall_impl; [exact Hwf|]. intros r (_ & _ & _ & Hup & Hne).
    apply String.eqb_neq. intros Heq. destruct Hmethod as [Hlow|Hempty];
      congruence. }
  assert (for_of_routes this options ctx 0 (this_routes this)
          = (this_routes this, None)) as Hloop.
  { rewrite for_of_routes_none.
    - f_equal. rewrite <- (map_id (this_routes this)) at 2.
      apply map_ext_Forall. eapply Forall_impl; [exact Hdiff|].
      intros r Hr. unfold_passed_over. by rewrite Hr.
    - eapply Forall_impl; [exact Hdiff|].
      intros r Hr. unfold_accepts. by rewrite Hr. }
  subst D. unfold_dispatch. rewrite Hloop.
  destruct (next ctx) as [o c]. by destruct this.
Qed.

(** *** Selection does not depend on the stored prefixes *)

Lemma accepts_static this options ctx R :
  route_wf this R →
  accepts this options ctx R
  = static_accepts this options ctx (r_method R) (r_pathname R).
Proof.
  unfold_route_wf. intros (Hpath & Hmatch & _).
  unfold_accepts. unfold_static_accepts.
  destruct (String.eqb (ctx_method ctx) (r_method R)); [|done].
  unfold_rewrite_prefix.
  destruct (decide (get options "prefix" = r_prefix R)) as [Heq|Hne].
  - rewrite decide_False by (by intros H; apply H).
    rewrite Hmatch, Hpath. by rewrite Heq.
  - by rewrite decide_True.
Qed.

Lemma for_of_routes_select this options ctx routes i :
  Forall (route_wf this) routes →
  option_map (λ found : nat * Route, (found.1, r_params found.2))
    (for_of_routes this options ctx i routes).2
  = select this options ctx i (map (λ r, (r_method r, r_pathname r)) routes).
Proof.
  intros Hwf. revert i.
  induction Hwf as [|route rest Hroute _ IH]; intros i; [done|].
  pose proof (accepts_static this options ctx route Hroute) as Hacc.
  destruct (static_accepts this options ctx (r_method route) (r_pathname route))
    as [m|] eqn:Hstatic.
  - rewrite (for_of_routes_hit _ _ _ _ _ _ _ _ _ m Hacc).
    simpl. by rewrite Hstatic.
  - rewrite for_of_routes_skip by done. simpl. rewrite Hstatic. apply IH.
Qed.

Lemma select_ext this this' options ctx table i :
  this_route this' = this_route this →
  select this' options ctx i table = select this options ctx i table.
Proof.
  intros Hroute. revert i.
  induction table as [|[method pathname] rest IH]; intros i; [done|].
  simpl. unfold_static_accepts. by rewrite Hroute, IH.
Qed.

Lemma steps_signature this options ctx routes routes' :
  Forall2 (route_step this options ctx) routes routes' →
  map (λ r, (r_method r, r_pathname r)) routes'
  = map (λ r, (r_method r, r_pathname r)) routes
  ∧ map r_route routes' = map r_route routes
  ∧ map (λ r, List.length (r_middlewares r)) routes'
    = map (λ r, List.length (r_middlewares r)) routes.
Proof.
  induction 1 as [|R R' rest rest' Hstep _ (IH1 & IH2 & IH3)]; [done|].
  destruct (route_step_signature _ _ _ _ _ Hstep) as (Hm & Hp & Hr & Hl).
  simpl. by rewrite Hm, Hp, Hr, Hl, IH1, IH2, IH3.
Qed.

(** *** What no dispatch changes *)

Lemma dispatch_frame options next this ctx :
  let this' := d_this (dispatch options next this ctx) in
  this_options this' = this_options this
  ∧ this_route this' = this_route this
  ∧ List.length (this_routes this') = List.length (this_routes this)
  ∧ signature this' = signature this
  ∧ map r_route (this_routes this') = map r_route (this_routes this)
  ∧ map (λ r, List.length (r_middlewares r)) (this_routes this')
    = map (λ r, List.length (r_middlewares r)) (this_routes this).
Proof.
  cbv zeta. rewrite dispatch_this.
  pose proof (for_of_routes_steps this options ctx (this_routes this) 0)
    as Hsteps.
  destruct (steps_signature _ _ _ _ _ Hsteps) as (H1 & H2 & H3).
  unfold signature. simpl.
  split; [done|]. split; [done|].
  split; [symmetry; by eapply Forall2_length|]. done.
Qed.

Lemma dispatch_all_signature next this (requests : list (object * Context)) :
  this_route (dispatch_all next this requests) = this_route this
  ∧ signature (dispatch_all next this requests) = signature this.
Proof.
  revert this. induction requests as [|[options ctx] requests IH]; intros this;
    [done|].
  simpl. destruct (IH (d_this (dispatch options next this ctx))) as [-> ->].
  destruct (dispatch_frame options next this ctx) as (_ & Hr & _ & Hsig & _).
  by split.
Qed.

(** Through any run of requests, under any prefixes, the dispatcher never
    adds, removes or reorders routes and never changes a route's method,
    original pattern or number of handlers, nor the router's options and
    compiler. *)
Theorem dispatch_all_frame next this (requests : list (object * Context)) :
  let this' := dispatch_all next this requests in
  this_options this' = this_options this
  ∧ this_route this' = this_route this
  ∧ List.length (this_routes this') = List.length (this_routes this)
  ∧ signature this' = signature this
  ∧ map r_route (this_routes this') = map r_route (this_routes this)
  ∧ map (λ r, List.length (r_middlewares r)) (this_routes this')
    = map (λ r, List.length (r_middlewares r)) (this_routes this).
Proof.
  revert this. induction requests as [|[options ctx] requests IH]; intros this;
    [done|].
  cbv zeta in *. simpl.
  destruct (IH (d_this (dispatch options next this ctx)))
    as (Ho & Hr & Hlen & Hsig & Hroute & Hmw).
  rewrite Ho, Hr, Hlen, Hsig, Hroute, Hmw.
  apply (dispatch_frame options next this ctx).
Qed.

Lemma dispatch_all_wf next this (requests : list (object * Context)) :
  router_wf this → router_wf (dispatch_all next this requests).
Proof.
  revert this. induction requests as [|[options ctx] requests IH];
    intros this Hwf; [done|].
  simpl. apply IH.
  by apply (apply_op_wf this (OpDispatch options next ctx)).
Qed.

(** Which route takes a request, and with which parameters, is decided by
    the methods and original patterns of the table under the dispatcher's
    prefix alone; the prefixes the routes store play no part, so the
    dispatches that came before, under whatever prefixes, do not change
    it. *)
Theorem selection_by_signature options this ctx :
  router_wf this →
  selected this options ctx = select this options ctx 0 (signature this)
  ∧ ∀ next (requests : list (object * Context)),
      selected (dispatch_all next this requests) options ctx
      = selected this options ctx.
Proof.
  intros Hwf.
  assert (∀ this, router_wf this →
            selected this options ctx
            = select this options ctx 0 (signature this)) as Hsel.
  { intros t Ht. unfold_selected. by apply for_of_routes_select. }
  split; [by apply Hsel|]. intros next requests.
  rewrite !Hsel by (done || by apply dispatch_all_wf).
  destruct (dispatch_all_signature next this requests) as [Hroute ->].
  by apply select_ext.
Qed.

(** *** Routes added later *)

Lemma for_of_routes_found_app this options ctx routes extra i found :
  (for_of_routes this options ctx i routes).2 = Some found →
  for_of_routes this options ctx i (routes ++ extra)
  = ((for_of_routes this options ctx i routes).1 ++ extra, Some found).
Proof.
  revert i. induction routes as [|route rest IH]; intros i; [done|].
  destruct (accepts this options ctx route) as [m|] eqn:Hacc.
  - rewrite <- app_comm_cons.
    rewrite !(for_of_routes_hit _ _ _ _ _ _ _ _ _ m Hacc). simpl.
    by intros [= <-].
  - rewrite <- app_comm_cons. rewrite !for_of_routes_skip by done. simpl.
    intros Hfound. by rewrite (IH _ Hfound).
Qed.

(** Registering a further route changes nothing for a request that a route
    of the table already takes: the same route is selected, the context and
    the outcome are the same, and the table is as it would have been, with
    the new route after it. *)
Theorem later_route_does_not_shadow options next this this' ctx arguments :
  addRoute createPrefix this arguments = inr this' →
  is_Some (selected this options ctx) →
  let D := dispatch options next this ctx in
  let D' := dispatch options next this' ctx in
  selected this' options ctx = selected this options ctx
  ∧ d_ctx D' = d_ctx D
  ∧ d_outcome D' = d_outcome D
  ∧ d_next_calls D' = d_next_calls D
  ∧ d_chain_calls D' = d_chain_calls D
  ∧ ∃ R, createRoute createPrefix this arguments = inr R
         ∧ this_routes (d_this D') = this_routes (d_this D) ++ [R].
Proof.
  intros Hadd Hsome D D'. subst D D'. revert Hadd Hsome. unfold addRoute.
  destruct (createRoute createPrefix this arguments) as [e|R]; [done|].
  intros [= <-].
  unfold_selected. unfold_dispatch. cbn [this_routes].
  rewrite (for_of_routes_ext this (mkRouter _ _ _)) by done.
  destruct (for_of_routes this options ctx 0 (this_routes this))
    as [routes found] eqn:Hloop.
  destruct found as [[i route]|]; [|by intros [x [=]]]. intros _.
  rewrite (for_of_routes_found_app this options ctx (this_routes this) [R] 0
             (i, route)) by (by rewrite Hloop).
  rewrite Hloop. cbn [fst snd option_map].
  destruct (then_next next _) as [[o c] calls]. simpl.
  repeat split; try done. by exists R.
Qed.

(** *** Dispatching the same request again *)

Lemma rewrite_prefix_prefix this options R :
  r_prefix (rewrite_prefix this options R) = get options "prefix".
Proof.
  unfold_rewrite_prefix. case_decide as Hd; [done|].
  by destruct (decide (get options "prefix" = r_prefix R)) as [->|]; [|destruct Hd].
Qed.

Lemma rewrite_prefix_idemp this options R :
  rewrite_prefix this options (rewrite_prefix this options R)
  = rewrite_prefix this options R.
Proof.
  apply rewrite_prefix_same. by rewrite rewrite_prefix_prefix.
Qed.

Section Converted.

(** koa-convert gives a function that is not a generator function. *)
Hypothesis convert_modern : ∀ fn, isGenerator (convert fn) = false.

Lemma on_match_idemp R m :
  on_match (on_match R m) m = on_match R m.
Proof.
  unfold_on_match. simpl. f_equal.
  rewrite map_map. apply map_ext. intros fn.
  destruct (isGenerator fn) eqn:Hfn; [by rewrite convert_modern|by rewrite Hfn].
Qed.

Lemma accepts_passed_over this options ctx R :
  accepts this options ctx (passed_over this options ctx R)
  = accepts this options ctx R
  ∧ passed_over this options ctx (passed_over this options ctx R)
    = passed_over this options ctx R.
Proof.
  unfold_accepts. unfold_passed_over.
  destruct (String.eqb (ctx_method ctx) (r_method R)) eqn:Hm.
  - assert (r_method (rewrite_prefix this options R) = r_method R) as ->
      by (unfold_rewrite_prefix; by case_decide).
    rewrite Hm. by rewrite rewrite_prefix_idemp.
  - by rewrite Hm.
Qed.

Lemma accepts_on_match this options ctx R m :
  accepts this options ctx R = Some m →
  accepts this options ctx (on_match (rewrite_prefix this options R) m) = Some m
  ∧ rewrite_prefix this options (on_match (rewrite_prefix this options R) m)
    = on_match (rewrite_prefix this options R) m.
Proof.
  unfold_accepts.
  destruct (String.eqb (ctx_method ctx) (r_method R)) eqn:Hm; [|discriminate].
  intros Hacc.
  assert (rewrite_prefix this options (on_match (rewrite_prefix this options R) m)
          = on_match (rewrite_prefix this options R) m) as Hsame.
  { apply rewrite_prefix_same. simpl. by rewrite rewrite_prefix_prefix. }
  split; [|done]. rewrite Hsame. simpl.
  assert (r_method (rewrite_prefix this options R) = r_method R) as ->
    by (unfold_rewrite_prefix; by case_decide).
  by rewrite Hm.
Qed.

Lemma for_of_routes_idemp this options ctx routes i :
  for_of_routes this options ctx i (for_of_routes this options ctx i routes).1
  = for_of_routes this options ctx i routes.
Proof.
  revert i. induction routes as [|route rest IH]; intros i; [done|].
  destruct (accepts this options ctx route) as [m|] eqn:Hacc.
  - destruct (accepts_on_match _ _ _ _ _ Hacc) as [Hacc' Hsame].
    rewrite (for_of_routes_hit _ _ _ _ _ _ _ _ _ m Hacc). cbn [fst].
    rewrite (for_of_routes_hit _ _ _ _ _ _ _ _ _ m Hacc').
    by rewrite Hsame, on_match_idemp.
  - destruct (accepts_passed_over this options ctx route) as [Hacc' Hsame].
    rewrite for_of_routes_skip by done. cbn [fst].
    rewrite for_of_routes_skip by (by rewrite Hacc').
    rewrite Hsame, IH. by destruct (for_of_routes _ _ _ _ rest).
Qed.

Lemma for_of_routes_found this options ctx routes i j R' :
  (for_of_routes this options ctx i routes).2 = Some (j, R') →
  ∃ R m, R' = on_match R m.
Proof.
  revert i. induction routes as [|route rest IH]; intros i; [done|].
  destruct (accepts this options ctx route) as [m|] eqn:Hacc.
  - rewrite (for_of_routes_hit _ _ _ _ _ _ _ _ _ m Hacc). simpl.
    intros [= _ <-]. by eexists _, _.
  - rewrite for_of_routes_skip by done. simpl. apply IH.
Qed.

(** When conversion gives modern functions, the handlers of a route that
    took a request hold no generator function any more, and dispatching the
    same request again through the same dispatcher selects the same route
    and changes nothing further in the router: the conversion and the
    prefix rewrite are done once. *)
Theorem dispatch_again options next this ctx :
  let D := dispatch options next this ctx in
  d_this (dispatch options next (d_this D) ctx) = d_this D
  ∧ selected (d_this D) options ctx = selected this options ctx
  ∧ ∀ i R', (for_of_routes this options ctx 0 (this_routes this)).2
              = Some (i, R') →
            Forall (λ fn, isGenerator fn = false) (r_middlewares R').
Proof.
  intros D. subst D. rewrite !dispatch_this. unfold_selected.
  cbn [this_routes set_routes].
  rewrite !(for_of_routes_ext this (set_routes this _)) by done.
  rewrite !for_of_routes_idemp. split; [done|]. split; [done|].
  intros i R' Hfound.
  destruct (for_of_routes_found _ _ _ _ _ _ _ Hfound) as (R & m & ->).
  simpl. apply Forall_map. apply Forall_true. intros fn. simpl.
  destruct (isGenerator fn) eqn:Hfn; [apply convert_modern|done].
Qed.

End Converted.

(** *** One request, at most one chain and one [next] *)


End LifeFacts.

(** *** On the demo router *)

(** [api3] is the demo router after three calls of [addRoute]. *)
Lemma api3_wf : router_wf Demo.createPrefix Demo.api3.
Proof.
  exact (proj1 (run_ops_keeps Demo.createPrefix Demo.isGenerator Demo.convert
                  Demo.compose Demo.api
                  [OpAddRoute [VStr "GET /users/:id"; VFun 2; VFun 103];
                   OpAddRoute [VStr "POST"; VStr "/users"; VArr [VFun 4]];
                   OpAddRoute [VStr "get"; VStr "/users/me"; VFun 0]]
                  (Forall_nil_2 _))).
Qed.

(** A request with the method [get] goes past the [GET] routes. *)
Lemma method_case_sensitive_witness :
  let D := Demo.run (this_options Demo.api3) Demo.api3
             (Demo.request "get" "/api/users/me") in
  d_this D = Demo.api3 ∧ d_chain_calls D = 0 ∧ d_next_calls D = 1.
Proof.
  destruct (method_case_sensitive Demo.createPrefix Demo.isGenerator
              Demo.convert Demo.compose (this_options Demo.api3) Demo.next
              Demo.api3 (Demo.request "get" "/api/users/me") api3_wf)
    as (Hthis & Hchain & Hnext & _).
  - left. discriminate.
  - cbv zeta. unfold Demo.run. by repeat split.
Defined.

(** After requests under [/v2], a request under [/api] still selects the
    first route, as on the table just registered. *)
Lemma selection_by_signature_witness :
  selected Demo.createPrefix Demo.isGenerator Demo.convert
    (dispatch_all Demo.createPrefix Demo.isGenerator Demo.convert Demo.compose
       Demo.next Demo.api3
       [({[ "prefix" := PStr "/v2" ]}, Demo.request "GET" "/v2/users/7");
        ({[ "prefix" := PStr "/v2" ]}, Demo.request "POST" "/v2/users")])
    (this_options Demo.api3) (Demo.request "GET" "/api/users/me")
  = Some (0, Some {[ "id" := "me" ]}).
Proof.
  destruct (selection_by_signature Demo.createPrefix Demo.isGenerator
              Demo.convert Demo.compose (this_options Demo.api3) Demo.api3
              (Demo.request "GET" "/api/users/me") api3_wf) as [_ Hlater].
  rewrite (Hlater Demo.next). vm_compute. reflexivity.
Defined.

(** A fourth route, for a pattern the first route already takes. *)
Lemma later_route_does_not_shadow_witness :
  let this' := Demo.add Demo.api3 [VStr "GET /users/7"; VFun 3] in
  List.length (this_routes this') = 4
  ∧ ctx_route (d_ctx (Demo.run (this_options this') this'
                        (Demo.request "GET" "/api/users/7")))
    = ctx_route (d_ctx (Demo.run (this_options Demo.api3) Demo.api3
                          (Demo.request "GET" "/api/users/7"))).
Proof.
  intros this'. split; [reflexivity|].
  destruct (later_route_does_not_shadow Demo.createPrefix Demo.isGenerator
              Demo.convert Demo.compose (this_options Demo.api3) Demo.next
              Demo.api3 this' (Demo.request "GET" "/api/users/7")
              [VStr "GET /users/7"; VFun 3]) as (_ & Hctx & _).
  - reflexivity.
  - eexists. vm_compute. reflexivity.
  - unfold Demo.run. change (this_options this') with (this_options Demo.api3).
    by rewrite Hctx.
Defined.

(** With a conversion that gives modern functions, the generator function
    103 of the first route is converted on the first match and the second
    dispatch of the request leaves the router as the first left it. *)
Lemma dispatch_again_witness :
  let D := Demo2.run (this_options Demo.api3) Demo.api3
             (Demo.request "GET" "/api/users/7") in
  d_this (Demo2.run (this_options Demo.api3) (d_this D)
            (Demo.request "GET" "/api/users/7")) = d_this D
  ∧ r_middlewares <$> (this_routes (d_this D) !! 0) = Some [VFun 2; VFun 3].
Proof.
  assert (∀ fn, Demo.isGenerator (Demo2.convert fn) = false) as Hconv.
  { intros [| | | | |f|]; try reflexivity.
    unfold Demo.isGenerator, Demo2.convert.
    apply Nat.leb_gt. apply Nat.mod_upper_bound. discriminate. }
  destruct (dispatch_again Demo.createPrefix Demo.isGenerator Demo2.convert
              Demo.compose Hconv (this_options Demo.api3) Demo.next Demo.api3
              (Demo.request "GET" "/api/users/7")) as (Hagain & _).
  split; [exact Hagain|]. reflexivity.
Defined.

(** * More on loadMethods *)

Section MoreLoadMethods.

Variable methods : list string.

(** The prototype after the [forEach], key by key. *)
Lemma install_verbs_cases (proto : gmap string property) (k : string) :
  foldl install_verb proto methods !! k =
    if decide (Exists (λ m, k = m ∨ k = toUpperCase m) methods)
    then Some (PropFunction (httpVerbMethod (toUpperCase k)))
    else proto !! k.
Proof.
  case_decide as Hk.
  - apply install_verbs_lookup. by apply Exists_exists in Hk.
  - apply install_verbs_other. intros m Hm. split; intros ->.
    + apply Hk. apply Exists_exists. exists m. by split; [|left].
    + apply Hk. apply Exists_exists. exists m. by split; [|right].
Qed.

(** Calling [loadMethods()] again, on any instance, changes nothing: the
    prototype holds the same entry under every name and the instances are
    as they were, so no route is registered twice. *)
Theorem loadMethods_idempotent (p : Program) (this other : nat) :
  (loadMethods methods (loadMethods methods p this).1 other).1
  = (loadMethods methods p this).1.
Proof.
  unfold loadMethods. cbn [fst prototype instances]. f_equal.
  apply map_eq. intros k.
  destruct (decide (k = "del")) as [->|Hk].
  - rewrite !lookup_insert_eq. f_equal. unfold proto_get.
    rewrite (install_verbs_cases (<[ "del" := _ ]> _) "delete").
    rewrite lookup_insert_ne by done.
    rewrite (install_verbs_cases (prototype p) "delete").
    by case_decide.
  - rewrite !lookup_insert_ne by done.
    rewrite (install_verbs_cases (<[ "del" := _ ]> _) k).
    rewrite lookup_insert_ne by done.
    rewrite (install_verbs_cases (prototype p) k).
    by case_decide.
Qed.

End MoreLoadMethods.

(** [addRoute] is still on the prototype after [loadMethods()]. *)
Lemma loadMethods_other_keys_witness :
  prototype
    (loadMethods Demo.methods
       {| prototype := initial_prototype; instances := [Demo.api] |} 0).1
    !! "addRoute" = Some (PropFunction addRoute_impl).
Proof.
  rewrite (loadMethods_other_keys Demo.methods).
  - reflexivity.
  - apply Forall_forall. repeat constructor; discriminate.
  - discriminate.
Defined.
